(** * GPJax: configuration registry, datasets and the Bayesian-optimisation loop

    A shallow embedding of
      - [gpjax/config.py]               ([get_defaults], [add_parameter]),
      - [docs/examples/bayesian_optimisation.py] ([optimise_sample], the
        Thompson-sampling loop and the running best),
    together with the library operations these call, as the specification
    describes them ([Dataset] and its [+], the checks of [sample_approx]).

    Floating-point arrays are represented by lists of rationals: every finite
    float64 is a rational and comparison, negation and minimum agree with the
    rational ones; NaN and infinities are outside the model. *)

From Stdlib Require Import Ascii String QArith Qminmax Lqa.
From stdpp Require Import base option list gmap strings.

(** ** Python exceptions and results *)

Inductive exn : Type :=
| KeyError
| TypeError
| AttributeError
| IndexError
| ValueError
| DimensionMismatchError.

Inductive result (A : Type) : Type :=
| Ok (a : A)
| Raise (e : exn).
Arguments Ok {A} a.
Arguments Raise {A} e.

Module Config.

(** *** Values stored in a [ConfigDict] *)

Definition loc := nat.

(** [npd.transforms.Transform] instances; the three defaults are named, any
    other bijection a caller registers is identified by its name. *)
Inductive Transform : Type :=
| SoftplusTransform
| IdentityTransform
| CholeskyTransform
| UserTransform (name : string).

Inductive value : Type :=
| VKey (seed : Z)            (* jr.PRNGKey(seed) *)
| VFloat (q : Q)
| VStr (s : string)
| VTransform (b : Transform)
| VConfigDict (l : loc).     (* a reference to a ConfigDict object *)

(** The interpreter state the module touches: the objects allocated so far
    (each [ConfigDict] is its field map), the allocation counter, and the
    module-level global [__config] ([None] until the first registration). *)
Record state : Type := State {
  heap : gmap loc (gmap string value);
  next_loc : loc;
  __config : option loc
}.

Definition init : state := State ∅ 0 None.

(** Computations mutate the state and may raise; a raised exception keeps the
    mutations done before it. *)
Definition M (A : Type) : Type := state → result A * state.

#[export] Instance M_ret : MRet M := λ A a s, (Ok a, s).
#[export] Instance M_bind : MBind M := λ A B f m s,
  match m s with
  | (Ok a, s') => f a s'
  | (Raise e, s') => (Raise e, s')
  end.

(** A [ConfigDict] refuses a field name that contains a dot. *)
Fixpoint has_dot (k : string) : bool :=
  match k with
  | EmptyString => false
  | String c k' => if Ascii.eqb c "."%char then true else has_dot k'
  end.

Section ConfigDict.

(** ml_collections' type-safety check on overriding an existing field
    ([_safe_cast]): [safe_cast_ok old new] tells whether [new] may replace
    [old].  The library is not part of the repository; nothing below depends
    on which overrides it accepts. *)
Variable safe_cast_ok : value → value → bool.

(** [ConfigDict()] *)
Definition ConfigDict_new : M loc := λ s,
  let l := next_loc s in
  (Ok l, State (<[l := ∅]> (heap s)) (S l) (__config s)).

(** [d[k] = v] and [d.k = v] ([ConfigDict.__setitem__]): [KeyError] for a
    name with a dot, [TypeError] when an existing field may not be
    overridden by [v]; otherwise the field is set.  Assigning to anything
    but a [ConfigDict] is a [TypeError]. *)
Definition setitem (d : value) (k : string) (v : value) : M () := λ s,
  match d with
  | VConfigDict l =>
      match heap s !! l with
      | Some fields =>
          if has_dot k then (Raise KeyError, s)
          else
            let store := State (<[l := <[k := v]> fields]> (heap s)) (next_loc s) (__config s) in
            match fields !! k with
            | Some old => if safe_cast_ok old v then (Ok (), store) else (Raise TypeError, s)
            | None => (Ok (), store)
            end
      | None => (Raise TypeError, s)
      end
  | _ => (Raise TypeError, s)
  end.

(** [d.k] ([ConfigDict.__getattr__]); [None.k] raises too. *)
Definition getattr (d : option loc) (k : string) : M value := λ s,
  match d with
  | Some l =>
      match heap s !! l with
      | Some fields =>
          match fields !! k with
          | Some v => (Ok v, s)
          | None => (Raise AttributeError, s)
          end
      | None => (Raise AttributeError, s)
      end
  | None => (Raise AttributeError, s)
  end.

Fixpoint setattrs (d : value) (kvs : list (string * value)) : M () :=
  match kvs with
  | [] => mret ()
  | (k, v) :: kvs' => setitem d k v ;; setattrs d kvs'
  end.

(** Truth value of the global: [None] is false, a [ConfigDict] is true
    unless it has no field ([ConfigDict.__len__]). *)
Definition truthy (g : option loc) : M bool := λ s,
  match g with
  | None => (Ok false, s)
  | Some l =>
      match heap s !! l with
      | Some fields => (Ok (negb (bool_decide (fields = ∅))), s)
      | None => (Ok true, s)
      end
  end.

Definition read_config : M (option loc) := λ s, (Ok (__config s), s).
Definition write_config (g : option loc) : M () := λ s,
  (Ok (), State (heap s) (next_loc s) g).

(** Lines 24-43 of [config.py]: the default bijections and the default
    parameter transforms, in assignment order. *)
Definition default_transformations : list (string * value) :=
  [ ("positive_transform", VTransform SoftplusTransform);
    ("identity_transform", VTransform IdentityTransform);
    ("triangular_transform", VTransform CholeskyTransform);
    ("lengthscale", VStr "positive_transform");
    ("variance", VStr "positive_transform");
    ("smoothness", VStr "positive_transform");
    ("shift", VStr "positive_transform");
    ("obs_noise", VStr "positive_transform");
    ("latent", VStr "identity_transform");
    ("basis_fns", VStr "identity_transform");
    ("offset", VStr "identity_transform");
    ("inducing_inputs", VStr "identity_transform");
    ("variational_mean", VStr "identity_transform");
    ("variational_root_covariance", VStr "triangular_transform");
    ("natural_vector", VStr "identity_transform");
    ("natural_matrix", VStr "identity_transform");
    ("expectation_vector", VStr "identity_transform");
    ("expectation_matrix", VStr "identity_transform") ].

Definition get_defaults : M (option loc) :=
  config ← ConfigDict_new;
  setitem (VConfigDict config) "key" (VKey 123) ;;
  setitem (VConfigDict config) "jitter" (VFloat (1 # 1000000)) ;;
  transformations ← ConfigDict_new;
  setitem (VConfigDict config) "transformations" (VConfigDict transformations) ;;
  setattrs (VConfigDict transformations) default_transformations ;;
  g ← read_config;
  b ← truthy g;
  (if negb b then write_config (Some config) else mret ()) ;;
  read_config.

Definition add_parameter (param_name : string) (bijection : Transform) : M () :=
  let lookup_name := param_name +:+ "_transform" in
  get_defaults ;;
  g ← read_config;
  t ← getattr g "transformations";
  setitem t lookup_name (VTransform bijection) ;;
  g' ← read_config;
  t' ← getattr g' "transformations";
  setitem t' param_name (VStr lookup_name).

(** The two module functions as calls of a client program. *)
Inductive call : Type :=
| GetDefaults
| AddParameter (param_name : string) (bijection : Transform).

(** A client's calls one after the other; a call that raises leaves the
    state it reached and the client goes on. *)
Fixpoint exec (calls : list call) (s : state) : state :=
  match calls with
  | [] => s
  | GetDefaults :: calls' => exec calls' (get_defaults s).2
  | AddParameter p b :: calls' => exec calls' (add_parameter p b s).2
  end.

(** What the [get_defaults()] calls among [calls] return, in order. *)
Fixpoint returns (calls : list call) (s : state) : list (result (option loc)) :=
  match calls with
  | [] => []
  | GetDefaults :: calls' => (get_defaults s).1 :: returns calls' (get_defaults s).2
  | AddParameter p b :: calls' => returns calls' (add_parameter p b s).2
  end.

(** [n] calls of [get_defaults()] in a row, with what each returned. *)
Fixpoint get_defaults_n (n : nat) : M (list (option loc)) :=
  match n with
  | 0 => mret []
  | S n' => r ← get_defaults; rs ← get_defaults_n n'; mret (r :: rs)
  end.

(** [get_defaults().transformations] as a field map, read through the
    reference held by the returned object. *)
Definition transformations_of (s : state) (c : option loc) : option (gmap string value) :=
  l0 ← c;
  f0 ← heap s !! l0;
  match f0 !! "transformations" with
  | Some (VConfigDict l1) => heap s !! l1
  | _ => None
  end.

(** The fields the construction in [get_defaults] gives the two fresh
    objects. *)
Definition insert_all (kvs : list (string * value)) (f : gmap string value) : gmap string value :=
  foldl (λ f kv, <[kv.1 := kv.2]> f) f kvs.

Definition default_config_fields (l1 : loc) : gmap string value :=
  <["transformations" := VConfigDict l1]> (<["jitter" := VFloat (1 # 1000000)]> (<["key" := VKey 123]> ∅)).

(** What a call leaves in the heap: two fresh objects, everything else as
    it was. *)
Definition allocated_defaults (h h' : gmap loc (gmap string value)) (n : loc) : Prop :=
  h' !! n = Some (default_config_fields (S n)) ∧
  h' !! S n = Some (insert_all default_transformations ∅) ∧
  (∀ l, l ≠ n → l ≠ S n → h' !! l = h !! l).

(** The registry is in place: [__config] refers to [l0], whose
    [transformations] field refers to [l1], both allocated. *)
Definition registered (l0 l1 : loc) (s : state) : Prop :=
  __config s = Some l0 ∧ l0 < next_loc s ∧ l1 < next_loc s ∧ l0 ≠ l1 ∧
  (∃ f0, heap s !! l0 = Some f0 ∧ f0 !! "transformations" = Some (VConfigDict l1)) ∧
  is_Some (heap s !! l1).

(** The registered object [l0] is there and has a field (so it is true as a
    condition), whatever its fields are. *)
Definition installed (l0 : loc) (s : state) : Prop :=
  __config s = Some l0 ∧ l0 < next_loc s ∧ ∃ f0, heap s !! l0 = Some f0 ∧ f0 ≠ ∅.

(** The two-step lookup of a parameter's bijection works for every
    parameter: an entry that holds a name refers to an entry that holds a
    bijection. *)
Definition resolves (t : gmap string value) : Prop :=
  ∀ k name, t !! k = Some (VStr name) → ∃ b, t !! name = Some (VTransform b).

(** A type-safe override policy: a field keeps the kind of value it has. *)
Definition same_type (old new : value) : bool :=
  match old, new with
  | VKey _, VKey _ | VFloat _, VFloat _ | VStr _, VStr _
  | VTransform _, VTransform _ | VConfigDict _, VConfigDict _ => true
  | _, _ => false
  end.

Lemma setitem_fresh l f k v s :
  heap s !! l = Some f → has_dot k = false → f !! k = None →
  setitem (VConfigDict l) k v s
  = (Ok (), State (<[l := <[k := v]> f]> (heap s)) (next_loc s) (__config s)).
Proof.
  intros Hl Hk Hf. unfold setitem. by rewrite Hl, Hk, Hf.
Qed.

Lemma setattrs_fresh l kvs : ∀ f s,
  heap s !! l = Some f →
  Forall (λ kv, has_dot kv.1 = false) kvs →
  NoDup kvs.*1 →
  (∀ k, k ∈ kvs.*1 → f !! k = None) →
  setattrs (VConfigDict l) kvs s
  = (Ok (), State (<[l := insert_all kvs f]> (heap s)) (next_loc s) (__config s)).
Proof.
  induction kvs as [|[k v] kvs IH]; intros f s Hl Hdot Hnd Hfresh; simpl.
  - unfold mret, M_ret. destruct s as [h n g]; simpl in *. by rewrite insert_id.
  - inversion_clear Hdot as [|? ? Hk Hdot']. inversion_clear Hnd as [|? ? Hnotin Hnd'].
    unfold mbind, M_bind. rewrite (setitem_fresh l f k v s) by (auto; apply Hfresh; left).
    rewrite IH with (f := <[k := v]> f); simpl.
    + by rewrite insert_insert_eq.
    + by rewrite lookup_insert_eq.
    + done.
    + done.
    + intros k' Hk'. rewrite lookup_insert_ne.
      * apply Hfresh. by right.
      * intros ->. done.
Qed.

Lemma default_keys_ok :
  Forall (λ kv : string * value, has_dot kv.1 = false) default_transformations ∧
  NoDup default_transformations.*1.
Proof.
  split.
  - repeat constructor.
  - apply (bool_decide_unpack _). vm_compute. exact I.
Qed.

Lemma bind_run {A B} (m : M A) (f : A → M B) s a s' :
  m s = (Ok a, s') → (m ≫= f) s = f a s'.
Proof. intros H. unfold mbind, M_bind. by rewrite H. Qed.

Lemma bind_raise {A B} (m : M A) (f : A → M B) s e s' :
  m s = (Raise e, s') → (m ≫= f) s = (Raise e, s').
Proof. intros H. unfold mbind, M_bind. by rewrite H. Qed.

Tactic Notation "run_step" tactic3(tac) :=
  erewrite bind_run by (cbn [heap next_loc __config]; tac); cbn [heap next_loc __config].

Ltac run_construction :=
  run_step reflexivity;
  run_step (apply setitem_fresh; [apply lookup_insert_eq|done|done]);
  run_step (apply setitem_fresh; [apply lookup_insert_eq|done|done]);
  run_step reflexivity;
  run_step (apply setitem_fresh;
                 [cbn [heap]; rewrite lookup_insert_ne by lia; apply lookup_insert_eq|done|done]);
  run_step (apply setattrs_fresh;
                 [ cbn [heap]; rewrite lookup_insert_ne by lia; apply lookup_insert_eq
                 | apply default_keys_ok | apply default_keys_ok
                 | intros; apply lookup_empty ]).

Lemma get_defaults_first s :
  __config s = None →
  ∃ h', get_defaults s
        = (Ok (Some (next_loc s)), State h' (S (S (next_loc s))) (Some (next_loc s))) ∧
        allocated_defaults (heap s) h' (next_loc s).
Proof.
  destruct s as [h n g]. cbn [next_loc heap __config]. intros ->.
  eexists. split.
  - unfold get_defaults. run_construction.
    run_step reflexivity. run_step reflexivity. run_step reflexivity.
    reflexivity.
  - unfold allocated_defaults, default_config_fields.
    split; [|split].
    + rewrite lookup_insert_ne by lia. by rewrite lookup_insert_eq.
    + by rewrite lookup_insert_eq.
    + intros l Hn HS. by rewrite !lookup_insert_ne by done.
Qed.

Lemma get_defaults_again s l0 f0 :
  __config s = Some l0 → l0 < next_loc s → heap s !! l0 = Some f0 → f0 ≠ ∅ →
  ∃ h', get_defaults s = (Ok (Some l0), State h' (S (S (next_loc s))) (Some l0)) ∧
        allocated_defaults (heap s) h' (next_loc s).
Proof.
  destruct s as [h n g]. cbn [next_loc heap __config]. intros -> Hlt Hl0 Hne.
  eexists. split.
  - unfold get_defaults. run_construction.
    run_step reflexivity.
    run_step (unfold truthy; cbn [heap]; rewrite !lookup_insert_ne by lia;
                   rewrite Hl0; rewrite bool_decide_eq_false_2 by done; reflexivity).
    run_step reflexivity.
    reflexivity.
  - unfold allocated_defaults, default_config_fields.
    split; [|split].
    + rewrite lookup_insert_ne by lia. by rewrite lookup_insert_eq.
    + by rewrite lookup_insert_eq.
    + intros l Hn HS. by rewrite !lookup_insert_ne by done.
Qed.

Lemma get_defaults_registered l0 l1 s :
  registered l0 l1 s →
  ∃ s', get_defaults s = (Ok (Some l0), s') ∧ registered l0 l1 s' ∧
        heap s' !! l0 = heap s !! l0 ∧ heap s' !! l1 = heap s !! l1.
Proof.
  intros (Hg & Hl0 & Hl1 & Hne & (f0 & Hf0 & Ht) & Hall).
  destruct (get_defaults_again s l0 f0) as (h' & Hrun & _ & _ & Hold); try done.
  { intros ->. by rewrite lookup_empty in Ht. }
  eexists. split; [exact Hrun|].
  assert (h' !! l0 = heap s !! l0) as E0 by (apply Hold; lia).
  assert (h' !! l1 = heap s !! l1) as E1 by (apply Hold; lia).
  cbn [heap]. split; [|done].
  unfold registered. cbn [heap next_loc __config].
  rewrite E0, E1. repeat split; try done; try lia. by exists f0.
Qed.

Lemma setitem_registered l0 l1 k v s :
  registered l0 l1 s →
  ∃ r s', setitem (VConfigDict l1) k v s = (r, s') ∧ registered l0 l1 s' ∧
          heap s' !! l0 = heap s !! l0 ∧
          (∀ f1, heap s !! l1 = Some f1 →
                 match r with
                 | Ok _ => heap s' !! l1 = Some (<[k := v]> f1)
                 | Raise _ => s' = s
                 end).
Proof.
  intros Hreg.
  pose proof Hreg as (Hg & Hl0 & Hl1 & Hne & (f0 & Hf0 & Ht) & [f1 Hf1]).
  assert (registered l0 l1 (State (<[l1 := <[k := v]> f1]> (heap s)) (next_loc s) (__config s))
          ∧ <[l1 := <[k := v]> f1]> (heap s) !! l0 = heap s !! l0
          ∧ <[l1 := <[k := v]> f1]> (heap s) !! l1 = Some (<[k := v]> f1)) as (Hreg' & E0 & E1).
  { rewrite lookup_insert_ne by done. rewrite lookup_insert_eq.
    split; [|done]. unfold registered. cbn [heap next_loc __config].
    rewrite lookup_insert_ne by done. rewrite lookup_insert_eq.
    repeat split; try done. by exists f0. }
  unfold setitem. rewrite Hf1.
  destruct (has_dot k).
  { do 2 eexists. split; [done|]. split; [exact Hreg|]. split; [done|]. by intros. }
  destruct (f1 !! k) as [old|]; [destruct (safe_cast_ok old v)|].
  - do 2 eexists. split; [done|]. cbn [heap]. split; [exact Hreg'|]. split; [done|].
    intros ? [= <-]. done.
  - do 2 eexists. split; [done|]. split; [exact Hreg|]. split; [done|]. by intros.
  - do 2 eexists. split; [done|]. cbn [heap]. split; [exact Hreg'|]. split; [done|].
    intros ? [= <-]. done.
Qed.

Lemma getattr_transformations l0 l1 s :
  registered l0 l1 s →
  getattr (Some l0) "transformations" s = (Ok (VConfigDict l1), s).
Proof.
  intros (_ & _ & _ & _ & (f0 & Hf0 & Ht) & _). unfold getattr. by rewrite Hf0, Ht.
Qed.

Lemma length_append (s1 s2 : string) :
  String.length (s1 +:+ s2) = String.length s1 + String.length s2.
Proof.
  induction s1 as [|c s1 IH]; [done|].
  change (String c s1 +:+ s2) with (String c (s1 +:+ s2)).
  simpl. by rewrite IH.
Qed.

Lemma transform_name_fresh (p : string) : p +:+ "_transform" ≠ p.
Proof.
  intros H. apply (f_equal String.length) in H.
  rewrite length_append in H. simpl in H. lia.
Qed.

(** [add_parameter] on a registered configuration: the registration and the
    configuration object are kept, and when the call returns normally both
    entries are in [transformations]. *)
Lemma add_parameter_registered l0 l1 p b s :
  registered l0 l1 s →
  ∃ r s', add_parameter p b s = (r, s') ∧ registered l0 l1 s' ∧
          heap s' !! l0 = heap s !! l0 ∧
          (r = Ok () →
           ∃ f1, heap s' !! l1 = Some f1 ∧
                 f1 !! (p +:+ "_transform") = Some (VTransform b) ∧
                 f1 !! p = Some (VStr (p +:+ "_transform"))).
Proof.
  intros Hreg. unfold add_parameter.
  destruct (get_defaults_registered l0 l1 s Hreg) as (s1 & Hrun & Hreg1 & E0 & _).
  erewrite bind_run by exact Hrun.
  erewrite bind_run by reflexivity.
  destruct Hreg1 as [Hg1 Hrest1]. rewrite Hg1.
  pose proof (conj Hg1 Hrest1 : registered l0 l1 s1) as Hreg1.
  erewrite bind_run by (by apply getattr_transformations).
  destruct (setitem_registered l0 l1 (p +:+ "_transform") (VTransform b) s1 Hreg1)
    as (r2 & s2 & Hset2 & Hreg2 & E2 & Hnew2).
  destruct r2 as [[]|e]; cycle 1.
  { erewrite bind_raise by exact Hset2. do 2 eexists. split; [done|].
    split; [done|]. split; [congruence|]. done. }
  erewrite bind_run by exact Hset2.
  erewrite bind_run by reflexivity.
  destruct Hreg2 as [Hg2 Hrest2]. rewrite Hg2.
  pose proof (conj Hg2 Hrest2 : registered l0 l1 s2) as Hreg2.
  erewrite bind_run by (by apply getattr_transformations).
  destruct (setitem_registered l0 l1 p (VStr (p +:+ "_transform")) s2 Hreg2)
    as (r3 & s3 & Hset3 & Hreg3 & E3 & Hnew3).
  rewrite Hset3. do 2 eexists. split; [done|]. split; [done|]. split; [congruence|].
  intros ->.
  destruct Hreg1 as (_ & _ & _ & _ & _ & [f1 Hf1]).
  specialize (Hnew2 f1 Hf1). cbn in Hnew2.
  specialize (Hnew3 _ Hnew2). cbn in Hnew3.
  eexists. split; [exact Hnew3|]. split.
  - rewrite lookup_insert_ne by (intros E; by apply (transform_name_fresh p)).
    by rewrite lookup_insert_eq.
  - by rewrite lookup_insert_eq.
Qed.


Lemma has_dot_append (k1 k2 : string) :
  has_dot (k1 +:+ k2) = has_dot k1 || has_dot k2.
Proof.
  induction k1 as [|c k1 IH]; [done|].
  change (String c k1 +:+ k2) with (String c (k1 +:+ k2)).
  simpl. by destruct (Ascii.eqb c ".").
Qed.

(** A dot-free name that is not in [transformations] yet, nor its
    [_transform] companion: the call returns normally. *)
Lemma add_parameter_new_name l0 l1 p b s f1 :
  registered l0 l1 s → heap s !! l1 = Some f1 →
  has_dot p = false → f1 !! p = None → f1 !! (p +:+ "_transform") = None →
  (add_parameter p b s).1 = Ok ().
Proof.
  intros Hreg Hf1 Hdot Hp Hpt. unfold add_parameter.
  destruct (get_defaults_registered l0 l1 s Hreg) as (s1 & Hrun & Hreg1 & _ & E1).
  rewrite Hf1 in E1.
  erewrite bind_run by exact Hrun.
  erewrite bind_run by reflexivity.
  destruct Hreg1 as [Hg1 Hrest1]. rewrite Hg1.
  pose proof (conj Hg1 Hrest1 : registered l0 l1 s1) as Hreg1.
  erewrite bind_run by (by apply getattr_transformations).
  destruct (setitem_registered l0 l1 (p +:+ "_transform") (VTransform b) s1 Hreg1)
    as (r2 & s2 & Hset2 & Hreg2 & _ & Hnew2).
  specialize (Hnew2 f1 E1).
  rewrite (setitem_fresh l1 f1) in Hset2; [|done|by rewrite has_dot_append, Hdot|done].
  injection Hset2 as <- Hs2.
  erewrite bind_run by (apply (setitem_fresh l1 f1); [done|by rewrite has_dot_append, Hdot|done]).
  rewrite Hs2.
  erewrite bind_run by reflexivity.
  destruct Hreg2 as [Hg2 Hrest2]. rewrite Hg2.
  pose proof (conj Hg2 Hrest2 : registered l0 l1 s2) as Hreg2.
  erewrite bind_run by (by apply getattr_transformations).
  erewrite setitem_fresh; [done|exact Hnew2|done|].
  rewrite lookup_insert_ne; [done|]. apply transform_name_fresh.
Qed.

Lemma get_defaults_n_registered l0 l1 n : ∀ s,
  registered l0 l1 s →
  ∃ s', get_defaults_n n s = (Ok (replicate n (Some l0)), s') ∧ registered l0 l1 s' ∧
        heap s' !! l0 = heap s !! l0 ∧ heap s' !! l1 = heap s !! l1.
Proof.
  induction n as [|n IH]; intros s Hreg; simpl.
  - by exists s.
  - destruct (get_defaults_registered l0 l1 s Hreg) as (s1 & Hrun & Hreg1 & E0 & E1).
    destruct (IH s1 Hreg1) as (s2 & Hrun2 & Hreg2 & E0' & E1').
    exists s2. erewrite bind_run by exact Hrun. erewrite bind_run by exact Hrun2.
    split; [done|]. split; [done|]. split; congruence.
Qed.

Lemma exec_registered l0 l1 calls : ∀ s,
  registered l0 l1 s →
  registered l0 l1 (exec calls s) ∧
  heap (exec calls s) !! l0 = heap s !! l0 ∧
  Forall (λ r, r = Ok (Some l0)) (returns calls s).
Proof.
  induction calls as [|[|p b] calls IH]; intros s Hreg; simpl.
  - done.
  - destruct (get_defaults_registered l0 l1 s Hreg) as (s1 & Hrun & Hreg1 & E0 & _).
    rewrite Hrun. cbn [fst snd].
    destruct (IH s1 Hreg1) as (? & ? & ?).
    split; [done|]. split; [congruence|]. by constructor.
  - destruct (add_parameter_registered l0 l1 p b s Hreg) as (r & s1 & Hrun & Hreg1 & E0 & _).
    rewrite Hrun. cbn [fst snd].
    destruct (IH s1 Hreg1) as (? & ? & ?).
    split; [done|]. split; [congruence|]. done.
Qed.

Lemma get_defaults_init :
  ∃ s0, get_defaults init = (Ok (Some 0), s0) ∧ registered 0 1 s0 ∧
        transformations_of s0 (Some 0) = Some (insert_all default_transformations ∅).
Proof.
  destruct (get_defaults_first init eq_refl) as (h' & Hrun & H0 & H1 & _).
  cbn [init next_loc] in *.
  eexists. split; [exact Hrun|]. split.
  - unfold registered. cbn [heap next_loc __config].
    split_and!; [done|lia|lia|done| |by eexists].
    eexists. split; [exact H0|]. unfold default_config_fields. by rewrite lookup_insert_eq.
  - unfold transformations_of. cbn [heap mbind option_bind]. rewrite H0. cbn.
    unfold default_config_fields. by rewrite lookup_insert_eq.
Qed.

Lemma transformations_of_registered l0 l1 s :
  registered l0 l1 s → transformations_of s (Some l0) = heap s !! l1.
Proof.
  intros (_ & _ & _ & _ & (f0 & Hf0 & Ht) & _).
  unfold transformations_of. cbn [mbind option_bind]. rewrite Hf0. cbn. by rewrite Ht.
Qed.

(** C10.  After the first call of [get_defaults()] (from the freshly loaded
    module), every later call returns the very object [c] the first call
    registered, whatever calls of the two functions a client made in
    between: the defaults built inside a later call are never registered.
    The object [c] keeps its fields, and after [add_parameter p b] any number
    [n] of further [get_defaults()] calls leave [transformations] as the
    addition left it; when the addition returned normally, both
    [p_transform ↦ b] and [p ↦ p_transform] are still there. *)
Theorem get_defaults_never_resets (calls : list call) (p : string) (b : Transform) (n : nat) :
  let s0 := (get_defaults init).2 in
  let s1 := exec calls s0 in
  let added := add_parameter p b s1 in
  let later := get_defaults_n n added.2 in
  ∃ c : loc,
    (get_defaults init).1 = Ok (Some c) ∧
    Forall (λ r, r = Ok (Some c)) (returns calls s0) ∧
    later.1 = Ok (replicate n (Some c)) ∧
    __config later.2 = Some c ∧
    heap later.2 !! c = heap s0 !! c ∧
    transformations_of later.2 (Some c) = transformations_of added.2 (Some c) ∧
    (added.1 = Ok () →
     ∃ t, transformations_of later.2 (Some c) = Some t ∧
          t !! (p +:+ "_transform") = Some (VTransform b) ∧
          t !! p = Some (VStr (p +:+ "_transform"))).
Proof.
  intros s0 s1 added later.
  destruct get_defaults_init as (s0' & Hrun0 & Hreg0 & _).
  assert (s0 = s0') as -> by (unfold s0; by rewrite Hrun0).
  destruct (exec_registered 0 1 calls s0' Hreg0) as (Hreg1 & E1 & Hret).
  fold s1 in Hreg1, E1.
  destruct (add_parameter_registered 0 1 p b s1 Hreg1) as (r & s2 & Hadd & Hreg2 & E2 & Hnew).
  assert (added = (r, s2)) as Hadded by exact Hadd.
  destruct (get_defaults_n_registered 0 1 n s2 Hreg2) as (s3 & Hn & Hreg3 & E3 & E3').
  assert (later = (Ok (replicate n (Some 0)), s3)) as Hlater.
  { unfold later. rewrite Hadded. exact Hn. }
  exists 0. rewrite Hrun0, Hlater, Hadded. cbn [fst snd].
  split; [done|]. split; [done|]. split; [done|].
  split; [apply Hreg3|]. split; [congruence|].
  rewrite (transformations_of_registered 0 1 s3 Hreg3).
  rewrite (transformations_of_registered 0 1 s2 Hreg2).
  split; [done|].
  intros Hr. destruct (Hnew Hr) as (f1 & Hf1 & Hk1 & Hk2).
  exists f1. rewrite E3'. split_and!; assumption.
Qed.


(** *** More on the registry *)

Lemma registered_installed l0 l1 s : registered l0 l1 s → installed l0 s.
Proof.
  intros (Hg & Hl0 & _ & _ & (f0 & Hf0 & Ht) & _). split_and!; [done|done|].
  exists f0. split; [done|]. intros ->. by rewrite lookup_empty in Ht.
Qed.

Lemma get_defaults_installed l0 s :
  installed l0 s →
  ∃ s', get_defaults s = (Ok (Some l0), s') ∧ installed l0 s' ∧
        heap s' !! l0 = heap s !! l0.
Proof.
  intros (Hg & Hl0 & f0 & Hf0 & Hne).
  destruct (get_defaults_again s l0 f0) as (h' & Hrun & _ & _ & Hold); try done.
  eexists. split; [exact Hrun|].
  assert (h' !! l0 = heap s !! l0) as E0 by (apply Hold; lia).
  split; [|done]. unfold installed. cbn [heap next_loc __config].
  split_and!; [done|lia|]. exists f0. by rewrite E0.
Qed.

Lemma get_defaults_n_installed l0 n : ∀ s,
  installed l0 s →
  ∃ s', get_defaults_n n s = (Ok (replicate n (Some l0)), s') ∧ installed l0 s' ∧
        heap s' !! l0 = heap s !! l0.
Proof.
  induction n as [|n IH]; intros s Hin; simpl.
  - by exists s.
  - destruct (get_defaults_installed l0 s Hin) as (s1 & Hrun & Hin1 & E0).
    destruct (IH s1 Hin1) as (s2 & Hrun2 & Hin2 & E0').
    exists s2. erewrite bind_run by exact Hrun. erewrite bind_run by exact Hrun2.
    split; [done|]. split; [done|]. congruence.
Qed.

(** What an assignment does, by cases. *)
Lemma setitem_cases l f k v s :
  heap s !! l = Some f →
  (∃ e, setitem (VConfigDict l) k v s = (Raise e, s)) ∨
  (setitem (VConfigDict l) k v s
   = (Ok (), State (<[l := <[k := v]> f]> (heap s)) (next_loc s) (__config s)) ∧
   match f !! k with
   | Some old => safe_cast_ok old v = true
   | None => True
   end).
Proof.
  intros Hl. unfold setitem. rewrite Hl.
  destruct (has_dot k); [left; by eexists|].
  destruct (f !! k) as [old|]; [|by right].
  destruct (safe_cast_ok old v); [by right|left; by eexists].
Qed.

Lemma registered_store l0 l1 f1' s :
  registered l0 l1 s →
  registered l0 l1 (State (<[l1 := f1']> (heap s)) (next_loc s) (__config s)).
Proof.
  intros (Hg & Hl0 & Hl1 & Hne & (f0 & Hf0 & Ht) & _).
  unfold registered. cbn [heap next_loc __config].
  rewrite lookup_insert_ne by done. rewrite lookup_insert_eq.
  split_and!; try done. by exists f0.
Qed.

(** [add_parameter] after its own [get_defaults()] call has returned the
    registered object: the registration stays, the configuration object keeps
    its fields, and [transformations] is as before, with the bijection only
    (the second assignment raised), or with both entries. *)
Lemma add_parameter_run l0 l1 p b s s1 f1 :
  get_defaults s = (Ok (Some l0), s1) → registered l0 l1 s1 → heap s1 !! l1 = Some f1 →
  ∃ r s' f1',
    add_parameter p b s = (r, s') ∧ registered l0 l1 s' ∧
    heap s' !! l0 = heap s1 !! l0 ∧ heap s' !! l1 = Some f1' ∧
    ((∃ e, r = Raise e ∧
           (f1' = f1 ∨ f1' = <[p +:+ "_transform" := VTransform b]> f1)) ∨
     (r = Ok () ∧
      f1' = <[p := VStr (p +:+ "_transform")]> (<[p +:+ "_transform" := VTransform b]> f1) ∧
      match (<[p +:+ "_transform" := VTransform b]> f1) !! p with
      | Some old => safe_cast_ok old (VStr (p +:+ "_transform")) = true
      | None => True
      end)).
Proof.
  intros Hrun Hreg1 Hf1. unfold add_parameter.
  erewrite bind_run by exact Hrun.
  erewrite bind_run by reflexivity.
  pose proof Hreg1 as [Hg1 _]. rewrite Hg1.
  erewrite bind_run by (by apply getattr_transformations).
  pose proof Hreg1 as (_ & _ & _ & Hne & _).
  destruct (setitem_cases l1 f1 (p +:+ "_transform") (VTransform b) s1 Hf1)
    as [[e He]|[Hset _]].
  { erewrite bind_raise by exact He. exists (Raise e), s1, f1.
    split_and!; try done. left. exists e. by split; [|left]. }
  erewrite bind_run by exact Hset.
  set (s2 := State _ _ _).
  assert (registered l0 l1 s2) as Hreg2 by (by apply registered_store).
  assert (heap s2 !! l0 = heap s1 !! l0) as E0
    by (unfold s2; cbn [heap]; by rewrite lookup_insert_ne).
  assert (heap s2 !! l1 = Some (<[p +:+ "_transform" := VTransform b]> f1)) as Hf2
    by (unfold s2; cbn [heap]; by rewrite lookup_insert_eq).
  erewrite bind_run by reflexivity.
  pose proof Hreg2 as [Hg2 _]. rewrite Hg2.
  erewrite bind_run by (by apply getattr_transformations).
  destruct (setitem_cases l1 _ p (VStr (p +:+ "_transform")) s2 Hf2)
    as [[e He]|[Hset3 Hok]].
  { rewrite He. exists (Raise e), s2, (<[p +:+ "_transform" := VTransform b]> f1).
    split_and!; try done. left. exists e. by split; [|right]. }
  rewrite Hset3. do 3 eexists. split; [done|].
  split; [by apply registered_store|].
  cbn [heap]. rewrite lookup_insert_ne by done. rewrite lookup_insert_eq.
  split_and!; try done. by right.
Qed.

Lemma get_defaults_fresh :
  ∃ s0, get_defaults init = (Ok (Some 0), s0) ∧ registered 0 1 s0 ∧
        heap s0 !! 1 = Some (insert_all default_transformations ∅).
Proof.
  destruct get_defaults_init as (s0 & Hrun & Hreg & Ht).
  exists s0. split_and!; [done|done|].
  exact (eq_trans (eq_sym (transformations_of_registered 0 1 s0 Hreg)) Ht).
Qed.

(** One call on a registered configuration, by what it leaves in
    [transformations]. *)
Lemma call_step l0 l1 c s f1 :
  registered l0 l1 s → heap s !! l1 = Some f1 →
  ∃ f1', registered l0 l1 (exec [c] s) ∧
         heap (exec [c] s) !! l0 = heap s !! l0 ∧
         heap (exec [c] s) !! l1 = Some f1' ∧
         (f1' = f1 ∨
          ∃ p b, c = AddParameter p b ∧
                 (f1' = <[p +:+ "_transform" := VTransform b]> f1 ∨
                  (f1' = <[p := VStr (p +:+ "_transform")]>
                           (<[p +:+ "_transform" := VTransform b]> f1) ∧
                   (add_parameter p b s).1 = Ok () ∧
                   match (<[p +:+ "_transform" := VTransform b]> f1) !! p with
                   | Some old => safe_cast_ok old (VStr (p +:+ "_transform")) = true
                   | None => True
                   end))).
Proof.
  intros Hreg Hf1.
  destruct (get_defaults_registered l0 l1 s Hreg) as (s1 & Hrun & Hreg1 & E0 & E1).
  destruct c as [|p b]; simpl.
  - rewrite Hrun. cbn [snd]. exists f1. split_and!; [done|done|congruence|by left].
  - rewrite Hf1 in E1.
    destruct (add_parameter_run l0 l1 p b s s1 f1 Hrun Hreg1 E1)
      as (r & s' & f1' & Hadd & Hreg' & E0' & Hf1' & Hcases).
    rewrite Hadd. cbn [snd]. exists f1'. split_and!; [done|congruence|done|].
    destruct Hcases as [(e & -> & [->| ->])|(-> & -> & Hok)].
    + by left.
    + right. exists p, b. split; [done|]. by left.
    + right. exists p, b. split; [done|]. right. by rewrite Hadd.
Qed.

(** The first call of a freshly loaded module, whichever function it is. *)
Lemma first_call c :
  ∃ f1, registered 0 1 (exec [c] init) ∧ heap (exec [c] init) !! 1 = Some f1 ∧
        (f1 = insert_all default_transformations ∅ ∨
         ∃ p b, c = AddParameter p b ∧
                (f1 = <[p +:+ "_transform" := VTransform b]>
                        (insert_all default_transformations ∅) ∨
                 (f1 = <[p := VStr (p +:+ "_transform")]>
                         (<[p +:+ "_transform" := VTransform b]>
                            (insert_all default_transformations ∅)) ∧
                  (add_parameter p b init).1 = Ok () ∧
                  match (<[p +:+ "_transform" := VTransform b]>
                           (insert_all default_transformations ∅)) !! p with
                  | Some old => safe_cast_ok old (VStr (p +:+ "_transform")) = true
                  | None => True
                  end))).
Proof.
  destruct get_defaults_fresh as (s0 & Hrun & Hreg & Ht).
  destruct c as [|p b]; cbn [exec].
  - rewrite Hrun. cbn [snd]. eexists. split_and!; [exact Hreg|exact Ht|left; reflexivity].
  - destruct (add_parameter_run 0 1 p b init s0 _ Hrun Hreg Ht)
      as (r & s' & f1' & Hadd & Hreg' & E0' & Hf1' & Hcases).
    rewrite Hadd. cbn [snd]. exists f1'. split_and!; [exact Hreg'|exact Hf1'|].
    destruct Hcases as [(e & -> & [->| ->])|(-> & -> & Hok)].
    + left. reflexivity.
    + right. exists p, b. split; [reflexivity|]. left. reflexivity.
    + right. exists p, b. split; [reflexivity|]. right.
      rewrite Hadd. split_and!; [reflexivity|reflexivity|exact Hok].
Qed.

Lemma exec_cons c calls s : exec (c :: calls) s = exec calls (exec [c] s).
Proof. by destruct c. Qed.

Lemma exec_from_init c calls :
  registered 0 1 (exec (c :: calls) init) ∧ is_Some (heap (exec (c :: calls) init) !! 1).
Proof.
  rewrite exec_cons. destruct (first_call c) as (f1 & Hreg & _).
  destruct (exec_registered 0 1 calls _ Hreg) as (Hreg' & _). split; [done|].
  apply Hreg'.
Qed.

Lemma exec_transformations c calls :
  ∃ f1, registered 0 1 (exec (c :: calls) init) ∧
        heap (exec (c :: calls) init) !! 1 = Some f1 ∧
        __config (exec (c :: calls) init) = Some 0 ∧
        transformations_of (exec (c :: calls) init) (Some 0) = Some f1.
Proof.
  destruct (exec_from_init c calls) as [Hreg [f1 Hf1]].
  exists f1. split_and!; [done|done|apply Hreg|].
  exact (eq_trans (transformations_of_registered 0 1 _ Hreg) Hf1).
Qed.

(** X1.  [get_defaults()] hands out the registered configuration itself, not
    a copy: once a client has assigned a field [k] of the returned object,
    every later [get_defaults()] returns that same object, and its field [k]
    holds the assigned value. *)
Theorem returned_config_is_shared (c0 : call) (calls : list call)
    (k : string) (v : value) (n : nat) (c : loc) (s2 : state) :
  let s1 := exec (c0 :: calls) init in
  (get_defaults s1).1 = Ok (Some c) →
  setitem (VConfigDict c) k v (get_defaults s1).2 = (Ok (), s2) →
  (get_defaults_n n s2).1 = Ok (replicate n (Some c)) ∧
  ∃ f, heap (get_defaults_n n s2).2 !! c = Some f ∧ f !! k = Some v.
Proof.
  intros s1 Hret Hset.
  destruct (exec_from_init c0 calls) as [Hreg _]. fold s1 in Hreg.
  destruct (get_defaults_installed 0 s1 (registered_installed 0 1 s1 Hreg))
    as (s1' & Hrun & Hin & _).
  rewrite Hrun in Hret, Hset. cbn [fst snd] in Hret, Hset.
  injection Hret as <-.
  destruct Hin as (Hg & Hlt & f0 & Hf0 & Hne).
  destruct (setitem_cases 0 f0 k v s1' Hf0) as [[e He]|[Hok _]]; [congruence|].
  rewrite Hok in Hset. injection Hset as <-.
  set (s2 := State _ _ _).
  assert (installed 0 s2) as Hin2.
  { unfold installed, s2. cbn [heap next_loc __config]. split_and!; [done|done|].
    eexists. split; [apply lookup_insert_eq|]. apply insert_non_empty. }
  destruct (get_defaults_n_installed 0 n s2 Hin2) as (s3 & Hn & _ & E).
  rewrite Hn. cbn [fst snd]. split; [done|].
  exists (<[k := v]> f0). split.
  - rewrite E. unfold s2. cbn [heap]. apply lookup_insert_eq.
  - apply lookup_insert_eq.
Qed.

(** X2.  [add_parameter p b] touches nothing but the two entries it is
    about: whether it returns or raises, the configuration object keeps its
    own fields and every other entry of [transformations] is as before. *)
Theorem add_parameter_frame (c0 : call) (calls : list call) (p : string) (b : Transform)
    (k : string) :
  k ≠ p → k ≠ p +:+ "_transform" →
  let s1 := exec (c0 :: calls) init in
  let s2 := (add_parameter p b s1).2 in
  ∃ c t1 t2,
    __config s1 = Some c ∧ __config s2 = Some c ∧
    heap s2 !! c = heap s1 !! c ∧
    transformations_of s1 (Some c) = Some t1 ∧
    transformations_of s2 (Some c) = Some t2 ∧
    t2 !! k = t1 !! k.
Proof.
  intros Hp Hpt s1 s2.
  destruct (exec_transformations c0 calls) as (f1 & Hreg & Hf1 & Hg & Ht1). fold s1 in Hreg, Hf1, Hg, Ht1.
  destruct (call_step 0 1 (AddParameter p b) s1 f1 Hreg Hf1)
    as (f1' & Hreg' & E0 & Hf1' & Hcases).
  change (exec [AddParameter p b] s1) with s2 in *.
  exists 0, f1, f1'. split_and!; [done|apply Hreg'|done|done| |].
  - exact (eq_trans (transformations_of_registered 0 1 s2 Hreg') Hf1').
  - destruct Hcases as [->|(p' & b' & [= <- <-] & [->|[-> _]])]; [done| |].
    + by rewrite lookup_insert_ne.
    + by rewrite !lookup_insert_ne.
Qed.

Lemma insert_all_lookup (kvs : list (string * value)) : ∀ (f : gmap string value) k v,
  NoDup kvs.*1 → (k, v) ∈ kvs → insert_all kvs f !! k = Some v.
Proof.
  unfold insert_all.
  induction kvs as [|[k' v'] kvs IH] using rev_ind; intros f k v Hnd Hin.
  - by apply elem_of_nil in Hin.
  - rewrite fmap_app in Hnd. apply NoDup_app in Hnd as (Hnd & Hdisj & _).
    rewrite foldl_app. simpl. apply elem_of_app in Hin as [Hin|Hin].
    + rewrite lookup_insert_ne; [by apply IH|].
      intros <-. apply (Hdisj k'); [|simpl; left].
      apply list_elem_of_fmap. by exists (k', v).
    + apply list_elem_of_singleton in Hin as [= -> ->]. apply lookup_insert_eq.
Qed.

(** X3.  [add_parameter] may be the very first call: it registers the
    defaults itself.  When it returns normally on a freshly loaded module,
    the next [get_defaults()] returns a configuration whose [transformations]
    hold the two new entries and every default the call did not overwrite. *)
Theorem add_parameter_registers_defaults (p : string) (b : Transform) :
  (add_parameter p b init).1 = Ok () →
  let s := (add_parameter p b init).2 in
  ∃ c t,
    (get_defaults s).1 = Ok (Some c) ∧
    transformations_of (get_defaults s).2 (Some c) = Some t ∧
    t !! (p +:+ "_transform") = Some (VTransform b) ∧
    t !! p = Some (VStr (p +:+ "_transform")) ∧
    ∀ k v, (k, v) ∈ default_transformations →
           k ≠ p → k ≠ p +:+ "_transform" → t !! k = Some v.
Proof.
  intros Hok s.
  destruct (get_defaults_fresh) as (s0 & Hrun0 & Hreg0 & Ht0).
  destruct (add_parameter_run 0 1 p b init s0 _ Hrun0 Hreg0 Ht0)
    as (r & s1 & f1 & Hadd & Hreg & _ & Hf1 & Hc).
  assert (s = s1) as Hs by (unfold s; rewrite Hadd; reflexivity).
  rewrite Hadd in Hok. cbn [fst] in Hok. subst r.
  destruct Hc as [(e & [=] & _)|(_ & -> & _)].
  clearbody s. subst s. clear Hadd.
  destruct (get_defaults_registered 0 1 s1 Hreg) as (s' & Hrun & Hreg' & _ & E1).
  rewrite Hrun. cbn [fst snd].
  eexists 0, _. split_and!; [reflexivity| | | |].
  - exact (eq_trans (transformations_of_registered 0 1 s' Hreg') (eq_trans E1 Hf1)).
  - rewrite lookup_insert_ne by apply not_eq_sym, transform_name_fresh.
    apply lookup_insert_eq.
  - apply lookup_insert_eq.
  - intros k v Hin Hp Hpt. rewrite !lookup_insert_ne by done.
    apply insert_all_lookup; [apply default_keys_ok|done].
Qed.

(** X4.  Registering the same parameter with the same bijection again
    changes nothing: when both calls return normally, [transformations]
    after the second call is what it was after the first. *)
Theorem add_parameter_twice (c0 : call) (calls : list call) (p : string) (b : Transform) :
  let s1 := exec (c0 :: calls) init in
  let once := add_parameter p b s1 in
  let twice := add_parameter p b once.2 in
  once.1 = Ok () → twice.1 = Ok () →
  ∃ c t, __config twice.2 = Some c ∧
         transformations_of once.2 (Some c) = Some t ∧
         transformations_of twice.2 (Some c) = Some t.
Proof.
  intros s1 once twice Hok1 Hok2.
  destruct (exec_transformations c0 calls) as (f1 & Hreg & Hf1 & _). fold s1 in Hreg, Hf1.
  destruct (get_defaults_registered 0 1 s1 Hreg) as (s1' & Hrun & Hreg1 & _ & E1).
  destruct (add_parameter_run 0 1 p b s1 s1' f1 Hrun Hreg1 (eq_trans E1 Hf1))
    as (r & s2 & f2 & Hadd & Hreg2 & _ & Hf2 & Hc).
  assert (once = (r, s2)) as Honce by exact Hadd.
  rewrite Honce in Hok1. cbn [fst] in Hok1. subst r.
  destruct Hc as [(e & [=] & _)|(_ & -> & _)].
  destruct (get_defaults_registered 0 1 s2 Hreg2) as (s2' & Hrun2 & Hreg2' & _ & E2).
  rewrite Hf2 in E2.
  destruct (add_parameter_run 0 1 p b s2 s2' _ Hrun2 Hreg2' E2)
    as (r & s3 & f3 & Hadd3 & Hreg3 & _ & Hf3 & Hc).
  assert (twice = (r, s3)) as Htwice by (unfold twice; rewrite Honce; exact Hadd3).
  rewrite Htwice in Hok2. cbn [fst] in Hok2. subst r.
  destruct Hc as [(e & [=] & _)|(_ & -> & _)].
  rewrite Htwice, Honce. cbn [snd].
  exists 0, (<[p := VStr (p +:+ "_transform")]> (<[p +:+ "_transform" := VTransform b]> f1)).
  split_and!; [apply Hreg3| |].
  - exact (eq_trans (transformations_of_registered 0 1 s2 Hreg2) Hf2).
  - rewrite (transformations_of_registered 0 1 s3 Hreg3), Hf3. f_equal.
    apply map_eq. intros k.
    destruct (decide (p = k)) as [<-|Hp]; [by rewrite !lookup_insert_eq|].
    destruct (decide (p +:+ "_transform" = k)) as [<-|Hpt].
    + rewrite (lookup_insert_ne _ p) by done. rewrite lookup_insert_eq.
      rewrite (lookup_insert_ne _ p) by done. by rewrite lookup_insert_eq.
    + by repeat rewrite lookup_insert_ne by done.
Qed.

Lemma resolves_defaults : resolves (insert_all default_transformations ∅).
Proof.
  assert (map_Forall (λ _ v,
            match v with
            | VStr name =>
                match insert_all default_transformations ∅ !! name with
                | Some (VTransform _) => true
                | _ => false
                end
            | _ => true
            end = true) (insert_all default_transformations ∅)) as Hall.
  { apply (bool_decide_unpack _). vm_compute. exact I. }
  intros k name Hk. specialize (Hall k _ Hk). cbv beta iota in Hall.
  destruct (insert_all default_transformations ∅ !! name) as [[]|];
    try discriminate Hall. by eexists.
Qed.

Lemma resolves_bijection (t : gmap string value) (k : string) (b : Transform) :
  resolves t → resolves (<[k := VTransform b]> t).
Proof.
  intros Hres k' name Hk'.
  destruct (decide (k = k')) as [<-|Hne]; [by rewrite lookup_insert_eq in Hk'|].
  rewrite lookup_insert_ne in Hk' by done.
  destruct (decide (k = name)) as [<-|Hne']; [rewrite lookup_insert_eq; by eexists|].
  rewrite lookup_insert_ne by done. by eapply Hres.
Qed.

Lemma resolves_parameter (t : gmap string value) (p name : string) (b : Transform) :
  (∀ b' name', safe_cast_ok (VTransform b') (VStr name') = false) →
  resolves t → t !! name = Some (VTransform b) → p ≠ name →
  match t !! p with
  | Some old => safe_cast_ok old (VStr name) = true
  | None => True
  end →
  resolves (<[p := VStr name]> t).
Proof.
  intros Hsafe Hres Hname Hne Hok k' name' Hk'.
  destruct (decide (p = k')) as [<-|Hne'].
  - rewrite lookup_insert_eq in Hk'. injection Hk' as <-.
    rewrite lookup_insert_ne by done. by eexists.
  - rewrite lookup_insert_ne in Hk' by done.
    destruct (Hres _ _ Hk') as [b' Hb'].
    destruct (decide (p = name')) as [<-|Hne''].
    + rewrite Hb' in Hok. by rewrite Hsafe in Hok.
    + rewrite lookup_insert_ne by done. by eexists.
Qed.

(** X5.  With a type-safe [ConfigDict] (an entry holding a bijection is never
    overridden by a name), the two-step lookup keeps working whatever calls
    of [get_defaults] and [add_parameter] a client makes, also after calls
    that raised: every entry of [transformations] that holds a name refers to
    an entry that holds a bijection. *)
Theorem transformations_resolve (c0 : call) (calls : list call) :
  (∀ b name, safe_cast_ok (VTransform b) (VStr name) = false) →
  let s := exec (c0 :: calls) init in
  ∃ c t, __config s = Some c ∧ transformations_of s (Some c) = Some t ∧ resolves t.
Proof.
  intros Hsafe s.
  assert (∃ f1, registered 0 1 s ∧ heap s !! 1 = Some f1 ∧ resolves f1)
    as (f1 & Hreg & Hf1 & Hres).
  { unfold s. rewrite exec_cons.
    destruct (first_call c0) as (f0 & Hreg0 & Hf0 & Hcases).
    assert (resolves f0) as Hres0.
    { destruct Hcases as [->|(p & b & _ & [->|(-> & _ & Hok)])].
      - apply resolves_defaults.
      - apply resolves_bijection, resolves_defaults.
      - apply (resolves_parameter _ p (p +:+ "_transform") b Hsafe);
          [ apply resolves_bijection, resolves_defaults
          | apply lookup_insert_eq
          | apply not_eq_sym, transform_name_fresh
          | exact Hok ]. }
    clear Hcases. revert Hreg0 Hf0 Hres0. generalize (exec [c0] init). revert f0.
    induction calls as [|c calls IH]; intros f0 s0 Hreg0 Hf0 Hres0;
      [exists f0; split_and!; assumption|].
    rewrite exec_cons.
    destruct (call_step 0 1 c s0 f0 Hreg0 Hf0) as (f1 & Hreg1 & _ & Hf1 & Hcases).
    apply (IH f1); [exact Hreg1|exact Hf1|].
    destruct Hcases as [->|(p & b & _ & [->|(-> & _ & Hok)])]; [exact Hres0| |].
    - apply resolves_bijection, Hres0.
    - apply (resolves_parameter _ p (p +:+ "_transform") b Hsafe);
        [ apply resolves_bijection, Hres0
        | apply lookup_insert_eq
        | apply not_eq_sym, transform_name_fresh
        | exact Hok ]. }
  exists 0, f1. split_and!; [apply Hreg| |exact Hres].
  exact (eq_trans (transformations_of_registered 0 1 s Hreg) Hf1).
Qed.

End ConfigDict.

(** The theorem at work: a client calls [get_defaults()] twice, registers a
    bijection for [period], and asks for the defaults twice more. *)
Lemma get_defaults_never_resets_witness :
  let ok := λ _ _ : value, true in
  let s1 := exec ok [GetDefaults] (get_defaults ok init).2 in
  let added := add_parameter ok "period" (UserTransform "ExpTransform") s1 in
  let later := get_defaults_n ok 2 added.2 in
  added.1 = Ok () ∧
  ∃ c t,
    (get_defaults ok init).1 = Ok (Some c) ∧
    later.1 = Ok [Some c; Some c] ∧
    transformations_of later.2 (Some c) = Some t ∧
    t !! "period_transform" = Some (VTransform (UserTransform "ExpTransform")) ∧
    t !! "period" = Some (VStr "period_transform").
Proof.
  intros ok s1 added later.
  assert (added.1 = Ok ()) as Hok by (vm_compute; reflexivity).
  split; [exact Hok|].
  destruct (get_defaults_never_resets ok [GetDefaults] "period" (UserTransform "ExpTransform") 2)
    as (c & H0 & _ & Hn & _ & _ & _ & Hentries).
  destruct (Hentries Hok) as (t & Ht & Hk1 & Hk2).
  exists c, t. split_and!; [exact H0 | exact Hn | exact Ht | exact Hk1 | exact Hk2].
Defined.

(** A client lowers the jitter on the configuration it was handed; the
    next two [get_defaults()] calls show the new value. *)
Lemma returned_config_is_shared_witness :
  let s1 := exec same_type [GetDefaults] init in
  let mine := get_defaults same_type s1 in
  let set := setitem same_type (VConfigDict 0) "jitter" (VFloat (1 # 1000)) mine.2 in
  set.1 = Ok () ∧
  (get_defaults_n same_type 2 set.2).1 = Ok [Some 0; Some 0] ∧
  ∃ f, heap (get_defaults_n same_type 2 set.2).2 !! 0 = Some f ∧
       f !! "jitter" = Some (VFloat (1 # 1000)).
Proof.
  intros s1 mine set.
  assert (set = (Ok (), set.2)) as Hset by (vm_compute; reflexivity).
  split; [by rewrite Hset|].
  apply (returned_config_is_shared same_type GetDefaults [] "jitter" (VFloat (1 # 1000)) 2 0 set.2).
  - vm_compute; reflexivity.
  - exact Hset.
Defined.

(** Registering [period] leaves the default for [lengthscale] alone. *)
Lemma add_parameter_frame_witness :
  let s1 := exec same_type [GetDefaults] init in
  let s2 := (add_parameter same_type "period" (UserTransform "ExpTransform") s1).2 in
  ∃ c t1 t2,
    __config s1 = Some c ∧ __config s2 = Some c ∧
    heap s2 !! c = heap s1 !! c ∧
    transformations_of s1 (Some c) = Some t1 ∧
    transformations_of s2 (Some c) = Some t2 ∧
    t2 !! "lengthscale" = t1 !! "lengthscale".
Proof.
  apply (add_parameter_frame same_type GetDefaults [] "period"
           (UserTransform "ExpTransform") "lengthscale"); done.
Defined.

Lemma add_parameter_registers_defaults_witness :
  let s := (add_parameter same_type "period" (UserTransform "ExpTransform") init).2 in
  ∃ c t,
    (get_defaults same_type s).1 = Ok (Some c) ∧
    transformations_of (get_defaults same_type s).2 (Some c) = Some t ∧
    t !! "period_transform" = Some (VTransform (UserTransform "ExpTransform")) ∧
    t !! "period" = Some (VStr "period_transform") ∧
    t !! "lengthscale" = Some (VStr "positive_transform").
Proof.
  intros s.
  destruct (add_parameter_registers_defaults same_type "period" (UserTransform "ExpTransform"))
    as (c & t & Hret & Ht & Hpt & Hp & Hdefaults).
  { vm_compute; reflexivity. }
  exists c, t. split_and!; [exact Hret|exact Ht|exact Hpt|exact Hp|].
  apply Hdefaults; [|done|done].
  unfold default_transformations. do 3 right. left.
Defined.

Lemma add_parameter_twice_witness :
  let s1 := exec same_type [GetDefaults] init in
  let once := add_parameter same_type "period" (UserTransform "ExpTransform") s1 in
  let twice := add_parameter same_type "period" (UserTransform "ExpTransform") once.2 in
  ∃ c t, __config twice.2 = Some c ∧
         transformations_of once.2 (Some c) = Some t ∧
         transformations_of twice.2 (Some c) = Some t.
Proof.
  apply (add_parameter_twice same_type GetDefaults [] "period" (UserTransform "ExpTransform"));
    vm_compute; reflexivity.
Defined.

(** With the type-safe policy, after a registration and one that raises
    (a bijection may not be overridden by a name). *)
Lemma transformations_resolve_witness :
  let s := exec same_type [AddParameter "period" (UserTransform "ExpTransform");
                           AddParameter "positive_transform" IdentityTransform;
                           GetDefaults] init in
  ∃ c t, __config s = Some c ∧ transformations_of s (Some c) = Some t ∧ resolves t.
Proof.
  apply (transformations_resolve same_type
           (AddParameter "period" (UserTransform "ExpTransform"))
           [AddParameter "positive_transform" IdentityTransform; GetDefaults]).
  intros b name. reflexivity.
Defined.

End Config.

(** ** Arrays and the error monad of pure library calls *)

#[export] Instance result_ret : MRet result := λ A a, Ok a.
#[export] Instance result_bind : MBind result := λ A B f r,
  match r with
  | Ok a => f a
  | Raise e => Raise e
  end.

(** A one-dimensional array and a two-dimensional array (its rows). *)
Abbreviation row := (list Q).
Abbreviation array := (list (list Q)).

(** Second component of [a.shape], read off the first row; [0] for an array
    without rows, whose width the list of its rows does not record. *)
Definition ncols (a : array) : nat :=
  match a with
  | [] => 0
  | r :: _ => length r
  end.

Module Data.

(** Modelled from the spec: the library's [Dataset] class ([gpjax/dataset.py]
    is not among the sources; the example only constructs datasets and adds
    them).  Section 3: an ordered sequence of (x, y) pairs, stored as two
    aligned arrays [X] (n×d) and [y] (n×m); d and m are fixed after the first
    construction; a dataset is created empty or from an initial design and
    grows by concatenation; [D1 + D2] requires matching d and m and produces
    a new dataset.  Section 7: incompatible dimensionality is a
    [DimensionMismatchError]. *)
Record Dataset : Type := mkDataset {
  X : array;
  y : array
}.

Definition in_dim (D : Dataset) : nat := ncols (X D).
Definition out_dim (D : Dataset) : nat := ncols (y D).

(** The invariant [X.rows == y.rows]. *)
Definition aligned (D : Dataset) : Prop := length (X D) = length (y D).

(** The (x, y) pairs in order. *)
Definition pairs (D : Dataset) : list (row * row) := zip (X D) (y D).

(** Modelled from the spec: the dataset created empty.  It has no row, and
    so no d and m of its own yet. *)
Definition empty_dataset : Dataset := mkDataset [] [].

(** Modelled from the spec: two arrays have matching widths.  An array
    without rows has fixed no width, so it matches any array: a dataset
    created empty grows by concatenation with data of any d and m. *)
Definition same_cols (a b : array) : bool :=
  match a, b with
  | [], _ | _, [] => true
  | _ :: _, _ :: _ => ncols a =? ncols b
  end.

(** Modelled from the spec: matching d and m. *)
Definition dims_match (D1 D2 : Dataset) : bool :=
  same_cols (X D1) (X D2) && same_cols (y D1) (y D2).

(** Modelled from the spec: [D1 + D2] ([Dataset.__add__]). *)
Definition add (D1 D2 : Dataset) : result Dataset :=
  if dims_match D1 D2
  then Ok (mkDataset (X D1 ++ X D2) (y D1 ++ y D2))
  else Raise DimensionMismatchError.

Lemma ncols_app (a b : array) : ncols a = ncols b → ncols (a ++ b) = ncols a.
Proof. destruct a as [|r a]; simpl; [|done]. by intros <-. Qed.

Lemma same_cols_ncols (a b : array) : ncols a = ncols b → same_cols a b = true.
Proof. destruct a, b; simpl; try done. intros ->. apply Nat.eqb_refl. Qed.

Lemma same_cols_app_r (a b c : array) :
  same_cols a b = true → same_cols a c = true → same_cols a (b ++ c) = true.
Proof. destruct a, b, c; simpl; done. Qed.

(** The two width checks of one bracketing pass exactly when those of the
    other do. *)
Lemma same_cols_assoc (a b c : array) :
  same_cols a b && same_cols (a ++ b) c = same_cols b c && same_cols a (b ++ c).
Proof.
  destruct a, b, c; simpl; apply eq_true_iff_eq;
    rewrite ?andb_true_iff, ?Nat.eqb_eq; intuition congruence.
Qed.

Lemma add_ok (D1 D2 : Dataset) :
  in_dim D1 = in_dim D2 → out_dim D1 = out_dim D2 →
  add D1 D2 = Ok (mkDataset (X D1 ++ X D2) (y D1 ++ y D2)).
Proof.
  intros Hd Hm. unfold add, dims_match. by rewrite !same_cols_ncols.
Qed.


Lemma add_raise (D1 D2 : Dataset) (e : exn) :
  add D1 D2 = Raise e ↔ e = DimensionMismatchError ∧ dims_match D1 D2 = false.
Proof.
  unfold add. destruct (dims_match D1 D2); split;
    try (intros [= <-]); try (intros [-> ?]); done.
Qed.

(** The empty dataset is accepted on either side and changes nothing. *)
Lemma add_empty_l (D : Dataset) : add empty_dataset D = Ok D.
Proof. by destruct D. Qed.

Lemma add_empty_r (D : Dataset) : add D empty_dataset = Ok D.
Proof.
  destruct D as [x v]. unfold add, dims_match, empty_dataset. cbn [X y].
  rewrite !app_nil_r. by destruct x, v.
Qed.

(** Both bracketings behave alike on all inputs: they raise together and
    return the same dataset otherwise. *)
Lemma add_assoc_result (D1 D2 D3 : Dataset) :
  (add D1 D2 ≫= λ D12, add D12 D3) = (add D2 D3 ≫= add D1).
Proof.
  pose proof (same_cols_assoc (X D1) (X D2) (X D3)) as HX.
  pose proof (same_cols_assoc (y D1) (y D2) (y D3)) as Hy.
  unfold mbind, result_bind, add, dims_match.
  destruct (same_cols (X D1) (X D2)), (same_cols (y D1) (y D2)),
    (same_cols (X D2) (X D3)), (same_cols (y D2) (y D3));
    cbn [andb X y] in *;
    destruct (same_cols (X D1 ++ X D2) (X D3)), (same_cols (y D1 ++ y D2) (y D3)),
      (same_cols (X D1) (X D2 ++ X D3)), (same_cols (y D1) (y D2 ++ y D3));
    cbn [andb] in *; try congruence.
  by rewrite !app_assoc.
Qed.

(** C9.  For datasets with matching input and output dimensions (each with
    each; a dataset without rows matches any), [+] is associative and keeps
    the order: both bracketings return the same dataset, whose [X] and [y]
    rows, and so whose (x, y) pairs, are those of [D1], then those of [D2],
    then those of [D3]. *)
Theorem dataset_add_assoc (D1 D2 D3 : Dataset) :
  dims_match D1 D2 = true → dims_match D2 D3 = true → dims_match D1 D3 = true →
  aligned D1 → aligned D2 →
  ∃ D, (add D1 D2 ≫= λ D12, add D12 D3) = Ok D ∧
       (add D2 D3 ≫= add D1) = Ok D ∧
       X D = X D1 ++ X D2 ++ X D3 ∧
       y D = y D1 ++ y D2 ++ y D3 ∧
       pairs D = pairs D1 ++ pairs D2 ++ pairs D3.
Proof.
  intros H12 H23 H13 Ha1 Ha2.
  exists (mkDataset (X D1 ++ X D2 ++ X D3) (y D1 ++ y D2 ++ y D3)).
  assert ((add D2 D3 ≫= add D1)
          = Ok (mkDataset (X D1 ++ X D2 ++ X D3) (y D1 ++ y D2 ++ y D3))) as Hright.
  { assert (add D2 D3 = Ok (mkDataset (X D2 ++ X D3) (y D2 ++ y D3))) as ->
      by (unfold add; by rewrite H23).
    cbn [mbind result_bind]. unfold add, dims_match in *. cbn [X y].
    apply andb_true_iff in H12 as [? ?], H13 as [? ?].
    by rewrite !same_cols_app_r. }
  split; [by rewrite add_assoc_result|]. split; [done|]. split; [done|]. split; [done|].
  unfold pairs, aligned in *. cbn [X y].
  rewrite zip_with_app by done. f_equal. by rewrite zip_with_app.
Qed.

(** A one-row dataset, the empty dataset and a two-row dataset, added both
    ways. *)
Lemma dataset_add_assoc_witness :
  let D1 := mkDataset [[1 # 2]] [[3 # 4]] in
  let D3 := mkDataset [[1 # 4]; [1 # 8]] [[0 # 1]; [1 # 1]] in
  ∃ D, (add D1 empty_dataset ≫= λ D12, add D12 D3) = Ok D ∧
       (add empty_dataset D3 ≫= add D1) = Ok D ∧
       X D = [[1 # 2]; [1 # 4]; [1 # 8]] ∧
       y D = [[3 # 4]; [0 # 1]; [1 # 1]].
Proof.
  intros D1 D3.
  destruct (dataset_add_assoc D1 empty_dataset D3) as (D & Hl & Hr & HX & Hy & _);
    try reflexivity.
  exists D. by rewrite HX, Hy.
Defined.

End Data.

Module Sampling.

(** Python values a caller may pass where a count is expected. *)
Inductive pyval : Type :=
| PyInt (i : Z)
| PyFloat (q : Q)
| PyStr (s : string)
| PyNone.

(** "a positive integer": an [int] greater than zero.  A float is not one,
    whatever its value (the tests pass [0.5]). *)
Definition is_positive_integer (v : pyval) : bool :=
  match v with
  | PyInt i => (0 <? i)%Z
  | _ => false
  end.

Definition count_of (v : pyval) : nat :=
  match v with
  | PyInt i => Z.to_nat i
  | _ => 0
  end.

Section SampleApprox.

Variables (Model Params PRNGKey : Type).

(** The random-feature construction itself: the sample functions drawn for a
    model, its parameters (or training data), a key, and the two counts. *)
Variable draw : Model → Params → PRNGKey → nat → nat → array → array.

(** Modelled from the spec: the precondition checks of [sample_approx]
    ([gpjax/gps.py] is not among the sources; [tests/test_gps.py] calls it).
    Section 4.3: [num_samples] is a positive integer (fails [ValueError]
    otherwise); [num_features] is a positive integer (fails [ValueError]
    otherwise); otherwise a batch of sample functions is returned. *)
Definition sample_approx (model : Model) (num_samples : pyval) (params : Params)
    (key : PRNGKey) (num_features : pyval) : result (array → array) :=
  if negb (is_positive_integer num_samples) then Raise ValueError
  else if negb (is_positive_integer num_features) then Raise ValueError
  else Ok (draw model params key (count_of num_samples) (count_of num_features)).

Lemma sample_approx_returns model num_samples params key num_features :
  is_positive_integer num_samples = true →
  is_positive_integer num_features = true →
  sample_approx model num_samples params key num_features
  = Ok (draw model params key (count_of num_samples) (count_of num_features)).
Proof. intros Hs Hf. unfold sample_approx. by rewrite Hs, Hf. Qed.

Lemma not_positive_integer (v : pyval) :
  is_positive_integer v = false ↔ ∀ i : Z, v = PyInt i → (i <= 0)%Z.
Proof.
  destruct v as [i| | |]; simpl; split; try done.
  - intros H j [= <-]. apply Z.ltb_ge in H. lia.
  - intros H. apply Z.ltb_ge. apply (H i eq_refl).
Qed.

(** C4.  Whatever the model, parameters and key, [sample_approx] raises
    [ValueError] when [num_samples] is not a positive integer, and when
    [num_features] is not a positive integer. *)
Theorem sample_approx_value_error model num_samples params key num_features :
  is_positive_integer num_samples = false ∨ is_positive_integer num_features = false →
  sample_approx model num_samples params key num_features = Raise ValueError.
Proof.
  intros [H|H]; unfold sample_approx.
  - by rewrite H.
  - rewrite H. by destruct (is_positive_integer num_samples).
Qed.

End SampleApprox.

(** The four rejected calls of [test_prior_sample_approx]: [-1] and [0.5]
    samples, [-10] and [0.5] features. *)
Lemma sample_approx_value_error_witness :
  let draw := λ (_ _ _ : unit) (_ _ : nat) (x : array), x in
  sample_approx unit unit unit draw () (PyInt (-1)) () () (PyInt 100) = Raise ValueError ∧
  sample_approx unit unit unit draw () (PyFloat (1 # 2)) () () (PyInt 100) = Raise ValueError ∧
  sample_approx unit unit unit draw () (PyInt 1) () () (PyInt (-10)) = Raise ValueError ∧
  sample_approx unit unit unit draw () (PyInt 1) () () (PyFloat (1 # 2)) = Raise ValueError.
Proof.
  intros draw. split_and!.
  - apply (sample_approx_value_error unit unit unit draw). left. reflexivity.
  - apply (sample_approx_value_error unit unit unit draw). left. reflexivity.
  - apply (sample_approx_value_error unit unit unit draw). right. reflexivity.
  - apply (sample_approx_value_error unit unit unit draw). right. reflexivity.
Defined.

End Sampling.

Module BayesOpt.
Import Data.

(** *** Array primitives of JAX used by the example *)

(** A sample function maps query points [N, D] to values [N, B], one column
    per sample drawn. *)
Definition FunctionalSample : Type := array → array.

(** [jnp.argmin] of a flat array: the index of the first minimal entry,
    scanning left to right with the best entry so far in hand. *)
Fixpoint argmin_from (best : Q) (best_i i : nat) (ys : list Q) : nat :=
  match ys with
  | [] => best_i
  | v :: ys' =>
      if Qle_bool best v then argmin_from best best_i (S i) ys'
      else argmin_from v i (S i) ys'
  end.

(** [jnp.argmin(a)] with no axis: the array is flattened first; an empty
    array has no argmin. *)
Definition argmin (a : array) : result nat :=
  match concat a with
  | [] => Raise ValueError
  | v :: ys => Ok (argmin_from v 0 1 ys)
  end.

(** [a[i]] for an index computed by JAX: an index past the end is clamped to
    the last row. *)
Definition getitem (a : array) (i : nat) : row :=
  nth (Nat.min i (length a - 1)) a [].

(** [a[0][0]]. *)
Definition item00 (a : array) : result Q :=
  match a with
  | (v :: _) :: _ => Ok v
  | _ => Raise IndexError
  end.

(** [jnp.minimum], elementwise on rows of equal length. *)
Definition minimum (a b : row) : row := zip_with Qmin a b.

(** [jax.lax.associative_scan(op, xs)] along the first axis: the inclusive
    prefix combinations [x0, op x0 x1, op (op x0 x1) x2, ...]. *)
Fixpoint scan_from {A} (op : A → A → A) (acc : A) (xs : list A) : list A :=
  match xs with
  | [] => []
  | x :: xs' => op acc x :: scan_from op (op acc x) xs'
  end.

Definition associative_scan {A} (op : A → A → A) (xs : list A) : list A :=
  match xs with
  | [] => []
  | x :: xs' => x :: scan_from op x xs'
  end.

(** The smallest entry of an array ([None] for an empty one). *)
Definition array_min (a : array) : option Q :=
  match concat a with
  | [] => None
  | v :: vs => Some (foldl Qmin v vs)
  end.

(** [lower <= x <= upper] elementwise, for every row of [x]. *)
Definition row_le (a b : row) : bool :=
  bool_decide (length a = length b) && forallb (λ p, Qle_bool p.1 p.2) (zip a b).

Definition within_bounds (lower upper : row) (x : array) : bool :=
  forallb (λ r, row_le lower r && row_le r upper) x.

(** Every row of [a] has [d] entries. *)
Definition width (d : nat) (a : array) : Prop := Forall (λ r, length r = d) a.

(** A sequence of rows never goes up from one row to the next. *)
Definition non_increasing (a : array) : Prop :=
  ∀ i r r', a !! i = Some r → a !! S i = Some r' → Forall2 Qle r' r.

(** The objective handed to the local optimiser in [optimise_sample]:
    [lambda x: sample(x)[0][0]]. *)
Definition negative_utility_fn (sample : FunctionalSample) (x : array) : result Q :=
  item00 (sample x).


(** Lines 459-465: [x1 = x[..., :1]], [x2 = x[..., 1:]], and the three
    terms, the single column [x1] broadcast against the columns of [x2]. *)
Definition six_hump_camel (x : array) : array :=
  map (λ r, match r with
            | [] => []
            | x1 :: x2 =>
                map (λ x2, let term1 := (4 - (21 # 10) * x1 ^ 2 + x1 ^ 4 / 3) * x1 ^ 2 in
                           let term2 := x1 * x2 in
                           let term3 := (-4 + 4 * x2 ^ 2) * x2 ^ 2 in
                           term1 + term2 + term3)%Q x2
            end) x.

(** *** A concrete run

    Stand-ins for the library calls, to run the definitions above: keys are
    counters, the uniform draw cycles through four points of the box, the
    sample path is a parabola with its minimum at 1/2, and the local
    optimiser stops where it starts (at the lower corner of the box, should
    the start lie outside). *)

Definition demo_split (key : nat) : nat * nat := (S key, key).

Definition demo_uniform (key : nat) (shape : nat * nat) (lower upper : row) : array :=
  map (λ i, zip_with (λ l u, l + (u - l) * (Z.of_nat (i mod 4 + 1) # 5))%Q lower upper)
      (seq 0 shape.1).

Definition demo_lbfgsb (f : array → result Q) (init : array) (bounds : row * row)
  : result array :=
  if within_bounds bounds.1 bounds.2 init then Ok init else Ok [bounds.1].

Definition demo_halton (dim num : nat) (key : nat) : array :=
  take num [[1 # 2]; [1 # 4]; [3 # 4]; [1 # 8]; [5 # 8]].

Definition demo_sin (v : Q) : Q := (v - v ^ 3 * (1 # 6))%Q.

Definition demo_sample : FunctionalSample := map (map (λ v, (v - (1 # 2)) ^ 2)%Q).

Definition demo_posterior (D : Dataset) (key : nat) : unit := ().

Definition demo_sample_approx (post : unit) (num_samples : nat) (D : Dataset) (key : nat)
  (num_features : nat) : FunctionalSample := demo_sample.

Section Example.

(** The libraries the example calls. *)
Variable PRNGKey : Type.
(** [jr.split(key)] *)
Variable jr_split : PRNGKey → PRNGKey * PRNGKey.
(** [jr.uniform(key, shape=(n, d), minval=lower, maxval=upper)] *)
Variable jr_uniform : PRNGKey → nat * nat → row → row → array.
(** [ScipyBoundedMinimize(fun=f, method="l-bfgs-b").run(init, bounds=bounds).params] *)
Variable lbfgsb_run : (array → result Q) → array → row * row → result array.
(** [tfp.mcmc.sample_halton_sequence(dim, num_results, seed).reshape(-1, 1)] *)
Variable sample_halton_sequence : nat → nat → PRNGKey → array.
(** [jnp.sin] *)
Variable jnp_sin : Q → Q.
(** The fitted posterior, [return_optimised_posterior(D, prior, key)] for the
    zero-mean Matern-5/2 prior of the example, and its
    [sample_approx(num_samples, train_data, key, num_features)]. *)
Variable Posterior : Type.
Variable return_optimised_posterior : Dataset → PRNGKey → Posterior.
Variable sample_approx : Posterior → nat → Dataset → PRNGKey → nat → FunctionalSample.

Definition forrester (x : array) : array :=
  map (map (λ v, (6 * v - 2) ^ 2 * jnp_sin (12 * v - 4))%Q) x.

Definition optimise_sample (sample : FunctionalSample) (key : PRNGKey)
    (lower_bound upper_bound : row) (num_initial_sample_points : nat) : result array :=
  let initial_sample_points :=
    jr_uniform key (num_initial_sample_points, length lower_bound) lower_bound upper_bound in
  let initial_sample_y := sample initial_sample_points in
  i ← argmin initial_sample_y;
  let best_x := [getitem initial_sample_points i] in
  let bounds := (lower_bound, upper_bound) in
  lbfgsb_run (negative_utility_fn sample) best_x bounds.

Definition lower_bound : row := [0%Q].
Definition upper_bound : row := [1%Q].
Definition initial_sample_num : nat := 5.
Definition bo_iters : nat := 5.

Definition initial_dataset (key : PRNGKey) : Dataset :=
  let initial_x := sample_halton_sequence 1 initial_sample_num key in
  let initial_y := forrester initial_x in
  mkDataset initial_x initial_y.

(** The body of the loop at lines 397-419 (plotting and printing left
    out). *)
Definition bo_step (key : PRNGKey) (D : Dataset) : result (PRNGKey * Dataset) :=
  let '(key, subkey) := jr_split key in
  let opt_posterior := return_optimised_posterior D subkey in
  let approx_sample := sample_approx opt_posterior 1 D subkey 500 in
  x_star ← optimise_sample approx_sample subkey lower_bound upper_bound 100;
  let y_star := forrester x_star in
  D' ← add D (mkDataset x_star y_star);
  mret (key, D').

(** [for i in range(iters)]. *)
Fixpoint bo_loop (iters : nat) (key : PRNGKey) (D : Dataset) : result (PRNGKey * Dataset) :=
  match iters with
  | 0 => mret (key, D)
  | S iters' => kD ← bo_step key D; bo_loop iters' kD.1 kD.2
  end.

(** Line 434. *)
Definition cumulative_best_y (D : Dataset) : array :=
  associative_scan minimum (y D).


(** *** The first minimal entry *)

Lemma argmin_from_spec (ys : list Q) : ∀ (pre : list Q) (best : Q) (best_i : nat),
  pre !! best_i = Some best →
  (∀ j v, pre !! j = Some v → (best <= v)%Q) →
  (∀ j v, j < best_i → pre !! j = Some v → (best < v)%Q) →
  ∃ m, (pre ++ ys) !! argmin_from best best_i (length pre) ys = Some m ∧
       (∀ j v, (pre ++ ys) !! j = Some v → (m <= v)%Q) ∧
       (∀ j v, j < argmin_from best best_i (length pre) ys →
               (pre ++ ys) !! j = Some v → (m < v)%Q).
Proof.
  induction ys as [|v ys IH]; intros pre best best_i Hbest Hle Hlt; simpl.
  - rewrite app_nil_r. eauto.
  - assert (best_i < length pre) as Hin by (by eapply lookup_lt_Some).
    replace (pre ++ v :: ys) with ((pre ++ [v]) ++ ys) by (by rewrite <- app_assoc).
    replace (S (length pre)) with (length (pre ++ [v])) by (rewrite length_app; simpl; lia).
    destruct (Qle_bool best v) eqn:Hcmp.
    + apply Qle_bool_iff in Hcmp. apply IH.
      * by rewrite lookup_app_l.
      * intros j w Hj. apply lookup_app_Some in Hj as [Hj|[_ Hj]]; [by eapply Hle|].
        apply list_lookup_singleton_Some in Hj as [_ <-]. done.
      * intros j w Hjlt Hj. rewrite lookup_app_l in Hj by lia. by eapply Hlt.
    + assert (v < best)%Q as Hv.
      { apply Qnot_le_lt. intros H. apply Qle_bool_iff in H. congruence. }
      apply IH.
      * rewrite lookup_app_r by lia. by rewrite Nat.sub_diag.
      * intros j w Hj. apply lookup_app_Some in Hj as [Hj|[_ Hj]].
        -- specialize (Hle _ _ Hj). lra.
        -- apply list_lookup_singleton_Some in Hj as [_ <-]. lra.
      * intros j w Hjlt Hj. rewrite lookup_app_l in Hj by done.
        specialize (Hle _ _ Hj). lra.
Qed.

Lemma argmin_spec (a : array) (v : Q) (vs : list Q) :
  concat a = v :: vs →
  ∃ i m, argmin a = Ok i ∧ concat a !! i = Some m ∧
         (∀ j w, concat a !! j = Some w → (m <= w)%Q) ∧
         (∀ j w, j < i → concat a !! j = Some w → (m < w)%Q).
Proof.
  intros Hc. unfold argmin. rewrite Hc.
  destruct (argmin_from_spec vs [v] v 0) as (m & Hm & Hle & Hlt).
  - done.
  - intros [|j] w; simpl; [|done]. intros [= <-]. lra.
  - intros j w Hj. lia.
  - exists (argmin_from v 0 1 vs), m. done.
Qed.

(** An array of shape [k, 1] is its single column. *)
Lemma column_lookup (a : array) :
  Forall (λ r, length r = 1) a →
  ∀ j w, concat a !! j = Some w ↔ a !! j = Some [w].
Proof.
  induction 1 as [|r a Hr _ IH]; intros j w; simpl; [done|].
  destruct r as [|u [|? ?]]; try done. simpl.
  destruct j as [|j]; simpl; [|apply IH]. split; by intros [= <-].
Qed.


Lemma getitem_lookup (a : array) (i : nat) (r : row) :
  a !! i = Some r → getitem a i = r.
Proof.
  intros Hi. unfold getitem.
  assert (i < length a) by (by eapply lookup_lt_Some).
  replace (Nat.min i (length a - 1)) with i by lia.
  rewrite nth_lookup. by rewrite Hi.
Qed.

(** C5.  [optimise_sample] draws [k] candidate points with one call of
    [jr.uniform] over the box, evaluates the sample at all of them in one
    call, and starts the bounded L-BFGS-B optimiser from exactly one of them:
    the candidate [x0] at the first index [i] whose value [v0] is the least
    of the [k] values (every value is at least [v0], every earlier one is
    strictly greater).  The values are those of the function being minimised,
    the negative utility, so [x0] is the candidate of greatest utility. *)
Theorem optimise_sample_start (sample : FunctionalSample) (key : PRNGKey)
    (lower upper : row) (k : nat) :
  let candidates := jr_uniform key (k, length lower) lower upper in
  let values := sample candidates in
  0 < k → length candidates = k → length values = k →
  Forall (λ r, length r = 1) values →
  ∃ i x0 v0,
    candidates !! i = Some x0 ∧ values !! i = Some [v0] ∧
    (∀ j v, values !! j = Some [v] → (v0 <= v)%Q) ∧
    (∀ j v, j < i → values !! j = Some [v] → (v0 < v)%Q) ∧
    optimise_sample sample key lower upper k
    = lbfgsb_run (negative_utility_fn sample) [x0] (lower, upper).
Proof.
  intros candidates values Hk Hc Hv Hshape.
  assert (∃ v vs, concat values = v :: vs) as (v & vs & Hconcat).
  { destruct values as [|[|u r] values']; simpl in *; [lia| |by eauto].
    by inversion Hshape. }
  destruct (argmin_spec values v vs Hconcat) as (i & m & Harg & Hi & Hle & Hlt).
  apply (column_lookup values Hshape) in Hi.
  assert (is_Some (candidates !! i)) as [x0 Hx0].
  { apply lookup_lt_is_Some. rewrite Hc, <- Hv. by eapply lookup_lt_Some. }
  exists i, x0, m. split_and!; try done.
  - intros j w Hj. apply (Hle j). by apply column_lookup.
  - intros j w Hji Hj. apply (Hlt j); [done|]. by apply column_lookup.
  - unfold optimise_sample. fold candidates. fold values. rewrite Harg.
    cbn [mbind result_bind]. by rewrite (getitem_lookup candidates i x0).
Qed.


(** *** Shapes *)

Lemma width_ncols (d : nat) (a : array) : width d a → a ≠ [] → ncols a = d.
Proof. destruct 1; [done|]. done. Qed.

Lemma forrester_width (d : nat) (x : array) : width d x → width d (forrester x).
Proof.
  unfold width, forrester. intros H. apply Forall_map. eapply Forall_impl; [exact H|].
  intros r Hr. simpl. by rewrite length_map.
Qed.

Lemma forrester_row (v : Q) : ∃ w, forrester [[v]] = [[w]].
Proof. by eexists. Qed.

(** *** Prefix minima *)

Lemma foldl_Qmin_le (vs : list Q) : ∀ m, (foldl Qmin m vs <= m)%Q.
Proof.
  induction vs as [|v vs IH]; intros m; simpl; [lra|].
  specialize (IH (Qmin m v)). pose proof (Q.le_min_l m v). lra.
Qed.

Lemma array_min_app (a b : array) (m : Q) :
  array_min a = Some m → ∃ m', array_min (a ++ b) = Some m' ∧ (m' <= m)%Q.
Proof.
  unfold array_min. rewrite concat_app.
  destruct (concat a) as [|v vs]; [done|]. intros [= <-]. simpl.
  eexists. split; [done|]. rewrite foldl_app. apply foldl_Qmin_le.
Qed.

Lemma scan_from_app {A} (op : A → A → A) (xs ys : list A) : ∀ acc,
  scan_from op acc (xs ++ ys) = scan_from op acc xs ++ scan_from op (foldl op acc xs) ys.
Proof. induction xs as [|x xs IH]; intros acc; simpl; [done|]. by rewrite IH. Qed.

Lemma scan_from_length {A} (op : A → A → A) (xs : list A) : ∀ acc,
  length (scan_from op acc xs) = length xs.
Proof. induction xs as [|x xs IH]; intros acc; simpl; [done|]. by rewrite IH. Qed.

Lemma scan_from_last {A} (op : A → A → A) (xs : list A) : ∀ acc,
  last (acc :: scan_from op acc xs) = Some (foldl op acc xs).
Proof.
  induction xs as [|x xs IH]; intros acc; [done|].
  simpl scan_from. rewrite last_cons_cons. apply IH.
Qed.

Lemma scan_from_column (vs : list Q) : ∀ acc,
  scan_from minimum [acc] ((λ v, [v]) <$> vs) = (λ v, [v]) <$> scan_from Qmin acc vs.
Proof. induction vs as [|v vs IH]; intros acc; simpl; [done|]. by rewrite IH. Qed.

Lemma column_of_concat (a : array) : width 1 a → a = (λ v, [v]) <$> concat a.
Proof.
  induction 1 as [|r a Hr _ IH]; simpl; [done|].
  destruct r as [|u [|? ?]]; try done. simpl. f_equal. exact IH.
Qed.

(** The running best of a one-column array ends at its smallest entry. *)
Lemma running_best_last (a : array) (m : Q) :
  width 1 a → array_min a = Some m → last (associative_scan minimum a) = Some [m].
Proof.
  intros Hw. pose proof (column_of_concat a Hw) as Ha. unfold array_min.
  destruct (concat a) as [|v vs]; [done|]. intros [= <-]. rewrite Ha. simpl.
  rewrite scan_from_column.
  change ([v] :: ((λ v0, [v0]) <$> scan_from Qmin v vs))
    with ((λ v0, [v0]) <$> (v :: scan_from Qmin v vs)).
  rewrite fmap_last, scan_from_last. done.
Qed.

Lemma minimum_le_l (a : row) : ∀ b, length a = length b → Forall2 Qle (minimum a b) a.
Proof.
  induction a as [|u a IH]; intros [|w b] Hlen; simpl in *; try lia.
  - constructor.
  - constructor; [apply Q.le_min_l|]. apply IH. lia.
Qed.

Lemma minimum_length (a b : row) : length a = length b → length (minimum a b) = length a.
Proof. intros H. unfold minimum. rewrite length_zip_with. lia. Qed.

Lemma scan_from_non_increasing (d : nat) (ys : array) : ∀ acc,
  length acc = d → width d ys → non_increasing (acc :: scan_from minimum acc ys).
Proof.
  induction ys as [|r ys IH]; intros acc Hacc Hw i r1 r2 H1 H2.
  - destruct i; done.
  - inversion_clear Hw as [|? ? Hr Hw']. simpl in *.
    destruct i as [|i]; simpl in *.
    + injection H1 as <-. injection H2 as <-. apply minimum_le_l. congruence.
    + apply (IH (minimum acc r)) with (i := i); try done.
      rewrite minimum_length; congruence.
Qed.

Lemma associative_scan_non_increasing (d : nat) (a : array) :
  width d a → non_increasing (associative_scan minimum a).
Proof.
  destruct 1 as [|r a Hr Hw]; simpl.
  - intros i ? ? H. by destruct i.
  - by apply (scan_from_non_increasing d).
Qed.

Lemma associative_scan_length {A} (op : A → A → A) (xs : list A) :
  length (associative_scan op xs) = length xs.
Proof. destruct xs as [|x xs]; simpl; [done|]. by rewrite scan_from_length. Qed.

Lemma associative_scan_app {A} (op : A → A → A) (xs ys : list A) :
  xs ≠ [] → ∃ zs, associative_scan op (xs ++ ys) = associative_scan op xs ++ zs.
Proof.
  destruct xs as [|x xs]; [done|]. intros _. simpl. rewrite scan_from_app. by eexists.
Qed.

Lemma array_min_is_Some (a : array) : width 1 a → a ≠ [] → is_Some (array_min a).
Proof.
  intros Hw Hne. pose proof (column_of_concat a Hw) as Ha. unfold array_min.
  destruct (concat a); [|by eexists]. by destruct a.
Qed.

(** *** The loop *)

Section Run.

(** Every acquisition step returns one point of the one-dimensional search
    space. *)
Hypothesis query_shape : ∀ D k, ∃ v,
  optimise_sample (sample_approx (return_optimised_posterior D k) 1 D k 500)
    k lower_bound upper_bound 100 = Ok [[v]].

Lemma bo_step_appends (key : PRNGKey) (D : Dataset) :
  in_dim D = 1 → out_dim D = 1 →
  ∃ key' D' v w, bo_step key D = Ok (key', D') ∧
                 X D' = X D ++ [[v]] ∧ y D' = y D ++ [[w]] ∧
                 in_dim D' = 1 ∧ out_dim D' = 1.
Proof.
  intros Hd Hm. unfold bo_step. destruct (jr_split key) as [k1 subkey].
  destruct (query_shape D subkey) as [v ->]. cbn [mbind result_bind].
  destruct (forrester_row v) as [w ->].
  rewrite add_ok by done. cbn [mbind result_bind mret result_ret X y].
  exists k1, (mkDataset (X D ++ [[v]]) (y D ++ [[w]])), v, w.
  split_and!; try done; unfold in_dim, out_dim in *; cbn [X y]; by rewrite ncols_app.
Qed.

Lemma bo_loop_appends (iters : nat) : ∀ (key : PRNGKey) (D : Dataset),
  in_dim D = 1 → out_dim D = 1 →
  ∃ key' D' new_x new_y,
    bo_loop iters key D = Ok (key', D') ∧
    X D' = X D ++ new_x ∧ y D' = y D ++ new_y ∧
    length new_x = iters ∧ length new_y = iters ∧ width 1 new_x ∧ width 1 new_y.
Proof.
  induction iters as [|iters IH]; intros key D Hd Hm.
  - exists key, D, [], []. rewrite !app_nil_r. split_and!; try done; constructor.
  - destruct (bo_step_appends key D Hd Hm) as (k1 & D1 & v & w & Hstep & HX & Hy & Hd1 & Hm1).
    destruct (IH k1 D1 Hd1 Hm1) as (k2 & D2 & nx & ny & Hloop & HX2 & Hy2 & Hnx & Hny & Hwx & Hwy).
    exists k2, D2, ([v] :: nx), ([w] :: ny).
    simpl. rewrite Hstep. cbn [mbind result_bind fst snd].
    split_and!; try done; simpl; try lia.
    + rewrite HX2, HX. by rewrite <- app_assoc.
    + rewrite Hy2, Hy. by rewrite <- app_assoc.
    + by constructor.
    + by constructor.
Qed.

(** C8.  In the Forrester run (5 initial Halton points, 5 Thompson-sampling
    iterations) the loop returns a dataset whose observations are the 5
    initial ones followed by the 5 new ones; the least of all 10 is at most
    the least of the initial 5; these two are the running best
    [cumulative_best_y] after the 5th and after the 10th evaluation; and the
    running best never increases from one evaluation to the next. *)
Theorem running_best_never_increases (key : PRNGKey) :
  length (sample_halton_sequence 1 initial_sample_num key) = initial_sample_num →
  width 1 (sample_halton_sequence 1 initial_sample_num key) →
  let D0 := initial_dataset key in
  ∃ key' D new_y best best0,
    bo_loop bo_iters key D0 = Ok (key', D) ∧
    y D = y D0 ++ new_y ∧ length (y D0) = 5 ∧ length new_y = 5 ∧
    array_min (y D) = Some best ∧ array_min (y D0) = Some best0 ∧ (best <= best0)%Q ∧
    cumulative_best_y D !! 4 = Some [best0] ∧
    cumulative_best_y D !! 9 = Some [best] ∧
    non_increasing (cumulative_best_y D).
Proof.
  intros Hlen Hwx D0.
  set (initial_x := sample_halton_sequence 1 initial_sample_num key) in *.
  assert (y D0 = forrester initial_x) as Hy0 by done.
  assert (length (y D0) = 5) as Hlen0.
  { rewrite Hy0. unfold forrester. by rewrite length_map. }
  assert (width 1 (y D0)) as Hw0 by (rewrite Hy0; by apply forrester_width).
  assert (initial_x ≠ []) as Hne by (intros E; by rewrite E in Hlen).
  assert (y D0 ≠ []) as Hne0 by (intros E; by rewrite E in Hlen0).
  destruct (bo_loop_appends bo_iters key D0)
    as (key' & D & nx & ny & Hloop & HX & Hy & Hnx & Hny & Hwnx & Hwny).
  { by apply (width_ncols 1). }
  { by apply (width_ncols 1). }
  assert (width 1 (y D)) as Hw by (rewrite Hy; by apply Forall_app).
  destruct (array_min_is_Some (y D0) Hw0 Hne0) as [best0 Hbest0].
  destruct (array_min_app (y D0) ny best0 Hbest0) as (best & Hbest & Hle).
  rewrite <- Hy in Hbest.
  exists key', D, ny, best, best0. split_and!; try done.
  - unfold cumulative_best_y. rewrite Hy.
    destruct (associative_scan_app minimum (y D0) ny Hne0) as [zs ->].
    rewrite lookup_app_l by (rewrite associative_scan_length; lia).
    rewrite <- (running_best_last (y D0) best0 Hw0 Hbest0).
    rewrite last_lookup, associative_scan_length, Hlen0. done.
  - unfold cumulative_best_y.
    rewrite <- (running_best_last (y D) best Hw Hbest).
    rewrite last_lookup, associative_scan_length, Hy, length_app, Hlen0, Hny. done.
  - by apply (associative_scan_non_increasing 1).
Qed.


Lemma forrester_app (a b : array) : forrester (a ++ b) = forrester a ++ forrester b.
Proof. unfold forrester. apply map_app. Qed.

Lemma bo_step_observes (key : PRNGKey) (D : Dataset) :
  in_dim D = 1 → out_dim D = 1 →
  ∃ key' D' v, bo_step key D = Ok (key', D') ∧
               X D' = X D ++ [[v]] ∧ y D' = y D ++ forrester [[v]] ∧
               in_dim D' = 1 ∧ out_dim D' = 1.
Proof using query_shape.
  intros Hd Hm. unfold bo_step. destruct (jr_split key) as [k1 subkey].
  destruct (query_shape D subkey) as [v ->]. cbn [mbind result_bind].
  rewrite add_ok by done. cbn [mbind result_bind mret result_ret X y].
  exists k1, (mkDataset (X D ++ [[v]]) (y D ++ forrester [[v]])), v.
  split_and!; try done; unfold in_dim, out_dim in *; cbn [X y]; by rewrite ncols_app.
Qed.

(** X7.  The dataset stays a faithful record of the objective, for any
    number of iterations: the loop returns, it only appends rows (one query
    per iteration, the earlier rows untouched), and every stored observation
    is the objective evaluated at the query stored in the same row. *)
Theorem observations_match_queries (iters : nat) (key : PRNGKey) (D : Dataset) :
  in_dim D = 1 → out_dim D = 1 → y D = forrester (X D) →
  ∃ key' D' new_x,
    bo_loop iters key D = Ok (key', D') ∧
    X D' = X D ++ new_x ∧ length new_x = iters ∧ width 1 new_x ∧
    y D' = forrester (X D') ∧ aligned D'.
Proof using query_shape.
  revert key D. induction iters as [|iters IH]; intros key D Hd Hm Hy.
  - exists key, D, []. rewrite app_nil_r. split_and!; try done; [constructor|].
    unfold aligned. rewrite Hy. unfold forrester. by rewrite length_map.
  - destruct (bo_step_observes key D Hd Hm) as (k1 & D1 & v & Hstep & HX & Hy1 & Hd1 & Hm1).
    destruct (IH k1 D1 Hd1 Hm1) as (k2 & D2 & nx & Hloop & HX2 & Hnx & Hwx & Hy2 & Hal).
    { by rewrite Hy1, HX, forrester_app, Hy. }
    exists k2, D2, ([v] :: nx). simpl. rewrite Hstep. cbn [mbind result_bind fst snd].
    split_and!; try done; simpl; try lia.
    + rewrite HX2, HX. by rewrite <- app_assoc.
    + by constructor.
Qed.

End Run.


(** *** More on [optimise_sample], the loop and the running best *)

(** X6.  With no candidate to choose from ([num_initial_sample_points = 0]:
    the draw is empty and so are the sample's values on it),
    [optimise_sample] raises [ValueError], the argmin of an empty array, and
    the local optimiser is not called. *)
Theorem optimise_sample_no_candidates (sample : FunctionalSample) (key : PRNGKey)
    (lower upper : row) :
  jr_uniform key (0, length lower) lower upper = [] → sample [] = [] →
  optimise_sample sample key lower upper 0 = Raise ValueError.
Proof.
  intros Hdraw Hvalues. unfold optimise_sample. by rewrite Hdraw, Hvalues.
Qed.

Lemma getitem_elem_of (a : array) (i : nat) : a ≠ [] → getitem a i ∈ a.
Proof.
  intros Hne. unfold getitem. rewrite nth_lookup.
  assert (length a ≠ 0) by (by destruct a).
  destruct (lookup_lt_is_Some_2 a (Nat.min i (length a - 1))) as [r Hr]; [lia|].
  rewrite Hr. simpl. by eapply list_elem_of_lookup_2.
Qed.

Lemma within_bounds_elem_of (lower upper r : row) (a : array) :
  within_bounds lower upper a = true → r ∈ a → within_bounds lower upper [r] = true.
Proof.
  unfold within_bounds. intros Hall Hin. simpl. rewrite andb_true_r.
  rewrite forallb_forall in Hall. apply (Hall r). by apply list_elem_of_In.
Qed.

(** X11.  Whatever shape the sample's values have, the point the local
    optimiser is started from is one of the drawn candidates; it lies within
    the bounds when the candidates do. *)
Theorem optimise_sample_start_feasible (sample : FunctionalSample) (key : PRNGKey)
    (lower upper : row) (k : nat) (x_star : array) :
  let candidates := jr_uniform key (k, length lower) lower upper in
  candidates ≠ [] →
  optimise_sample sample key lower upper k = Ok x_star →
  ∃ x0, x0 ∈ candidates ∧
        lbfgsb_run (negative_utility_fn sample) [x0] (lower, upper) = Ok x_star ∧
        (within_bounds lower upper candidates = true →
         within_bounds lower upper [x0] = true).
Proof.
  intros candidates Hne. unfold optimise_sample. fold candidates.
  destruct (argmin _) as [i|e]; cbn [mbind result_bind]; [|done].
  intros Hrun. exists (getitem candidates i).
  split_and!; [by apply getitem_elem_of|done|].
  intros Hin. eapply within_bounds_elem_of; [done|]. by apply getitem_elem_of.
Qed.




Lemma associative_scan_take {A} (op : A → A → A) (xs : list A) (n : nat) :
  take n (associative_scan op xs) = associative_scan op (take n xs).
Proof.
  destruct xs as [|x xs]; [by destruct n|]. destruct n as [|n]; [done|]. simpl. f_equal.
  revert x n. induction xs as [|x' xs IH]; intros x n; [by destruct n|].
  destruct n as [|n]; [done|]. simpl. f_equal. apply IH.
Qed.

Lemma foldl_Qmin_le_elem (vs : list Q) : ∀ m x, x ∈ vs → (foldl Qmin m vs <= x)%Q.
Proof.
  induction vs as [|v vs IH]; intros m x Hin; [by apply elem_of_nil in Hin|].
  simpl. apply elem_of_cons in Hin as [->|Hin]; [|by apply IH].
  pose proof (foldl_Qmin_le vs (Qmin m v)). pose proof (Q.le_min_r m v). lra.
Qed.

Lemma elem_of_concat (a : array) (r : row) (v : Q) : r ∈ a → v ∈ r → v ∈ concat a.
Proof.
  induction a as [|r' a IH]; intros Hr Hv; [by apply elem_of_nil in Hr|].
  simpl. apply elem_of_app. apply elem_of_cons in Hr as [->|Hr]; [by left|right; by apply IH].
Qed.

Lemma array_min_le (a : array) (m v : Q) (r : row) :
  array_min a = Some m → r ∈ a → v ∈ r → (m <= v)%Q.
Proof.
  unfold array_min. intros Hmin Hr Hv.
  pose proof (elem_of_concat a r v Hr Hv) as Hin.
  destruct (concat a) as [|v0 vs]; [done|]. injection Hmin as <-.
  apply elem_of_cons in Hin as [->|Hin]; [apply foldl_Qmin_le|by apply foldl_Qmin_le_elem].
Qed.

(** X9.  For observations in one column, entry [i] of the running best is
    the least of the first [i + 1] observations, and so is at most the
    observation made at step [i]. *)
Theorem cumulative_best_is_prefix_minimum (D : Dataset) (i : nat) (v : Q) :
  width 1 (y D) → y D !! i = Some [v] →
  ∃ m, cumulative_best_y D !! i = Some [m] ∧
       array_min (take (S i) (y D)) = Some m ∧ (m <= v)%Q.
Proof.
  intros Hw Hi.
  assert (i < length (y D)) as Hlt by (by eapply lookup_lt_Some).
  assert (width 1 (take (S i) (y D))) as Hw' by (by apply Forall_take).
  assert (take (S i) (y D) !! i = Some [v]) as Hi' by (rewrite lookup_take_lt; [done|lia]).
  destruct (array_min_is_Some (take (S i) (y D)) Hw') as [m Hm].
  { intros E. by rewrite E in Hi'. }
  exists m. split_and!; [|done|].
  - unfold cumulative_best_y.
    rewrite <- (lookup_take_lt _ (S i)) by lia.
    rewrite associative_scan_take.
    rewrite <- (running_best_last _ m Hw' Hm).
    rewrite last_lookup, associative_scan_length, length_take. f_equal. lia.
  - eapply (array_min_le _ m v [v]); [done| |by left].
    by eapply list_elem_of_lookup_2.
Qed.

Lemma six_hump_camel_row_even (x1 : Q) (x2 : row) :
  Forall2 Qeq
    (map (λ x2, let term1 := (4 - (21 # 10) * (- x1) ^ 2 + (- x1) ^ 4 / 3) * (- x1) ^ 2 in
                let term2 := - x1 * x2 in
                let term3 := (-4 + 4 * x2 ^ 2) * x2 ^ 2 in
                term1 + term2 + term3)%Q (map Qopp x2))
    (map (λ x2, let term1 := (4 - (21 # 10) * x1 ^ 2 + x1 ^ 4 / 3) * x1 ^ 2 in
                let term2 := x1 * x2 in
                let term3 := (-4 + 4 * x2 ^ 2) * x2 ^ 2 in
                term1 + term2 + term3)%Q x2).
Proof.
  induction x2 as [|b x2 IH]; simpl; constructor; [|exact IH]. field.
Qed.

(** X10.  The six-hump camel function is even, [f(-x) = f(x)] at every point
    (which is why its two global minima are opposite points); it returns one
    row per point, of a single entry for points of the plane. *)
Theorem six_hump_camel_even (x : array) :
  length (six_hump_camel x) = length x ∧
  (width 2 x → width 1 (six_hump_camel x)) ∧
  Forall2 (Forall2 Qeq) (six_hump_camel (map (map Qopp) x)) (six_hump_camel x).
Proof.
  split_and!.
  - unfold six_hump_camel. by rewrite length_map.
  - unfold width, six_hump_camel. intros Hw. apply Forall_map.
    eapply Forall_impl; [exact Hw|]. intros [|x1 x2] Hr; [done|].
    simpl in *. rewrite length_map. lia.
  - induction x as [|[|x1 x2] x IH]; simpl; constructor; try exact IH; [constructor|].
    apply six_hump_camel_row_even.
Qed.

End Example.

(** Four candidates with values 9/100, 1/100, 1/100, 9/100: the start is the
    second candidate, the first of the two best. *)
Lemma optimise_sample_start_witness :
  optimise_sample nat demo_uniform demo_lbfgsb demo_sample 0 [0%Q] [1%Q] 4 = Ok [[2 # 5]] ∧
  ∃ i x0 v0,
    demo_uniform 0 (4, 1) [0%Q] [1%Q] !! i = Some x0 ∧
    demo_sample (demo_uniform 0 (4, 1) [0%Q] [1%Q]) !! i = Some [v0] ∧
    optimise_sample nat demo_uniform demo_lbfgsb demo_sample 0 [0%Q] [1%Q] 4
    = demo_lbfgsb (negative_utility_fn demo_sample) [x0] ([0%Q], [1%Q]).
Proof.
  split; [vm_compute; reflexivity|].
  destruct (optimise_sample_start nat demo_uniform demo_lbfgsb demo_sample 0 [0%Q] [1%Q] 4)
    as (i & x0 & v0 & Hc & Hv & _ & _ & Hrun).
  - lia.
  - reflexivity.
  - reflexivity.
  - repeat constructor.
  - exists i, x0, v0. split_and!; [exact Hc|exact Hv|exact Hrun].
Defined.





Lemma demo_query_shape (D : Dataset) (k : nat) :
  ∃ v, optimise_sample nat demo_uniform demo_lbfgsb
         (demo_sample_approx (demo_posterior D k) 1 D k 500) k lower_bound upper_bound 100
       = Ok [[v]].
Proof. eexists. vm_compute. reflexivity. Qed.


(** The whole demo run. *)
Lemma running_best_never_increases_witness :
  let D0 := initial_dataset nat demo_halton demo_sin 0 in
  ∃ key' D new_y best best0,
    bo_loop nat demo_split demo_uniform demo_lbfgsb demo_sin unit demo_posterior
      demo_sample_approx bo_iters 0 D0 = Ok (key', D) ∧
    y D = y D0 ++ new_y ∧ length (y D0) = 5 ∧ length new_y = 5 ∧
    array_min (y D) = Some best ∧ array_min (y D0) = Some best0 ∧ (best <= best0)%Q ∧
    cumulative_best_y D !! 4 = Some [best0] ∧
    cumulative_best_y D !! 9 = Some [best] ∧
    non_increasing (cumulative_best_y D).
Proof.
  apply (running_best_never_increases nat demo_split demo_uniform demo_lbfgsb demo_halton
           demo_sin unit demo_posterior demo_sample_approx demo_query_shape 0).
  - reflexivity.
  - repeat constructor.
Defined.

Lemma optimise_sample_no_candidates_witness :
  optimise_sample nat demo_uniform demo_lbfgsb demo_sample 0 [0%Q] [1%Q] 0 = Raise ValueError.
Proof.
  apply (optimise_sample_no_candidates nat demo_uniform demo_lbfgsb demo_sample 0 [0%Q] [1%Q]);
    reflexivity.
Defined.

Lemma optimise_sample_start_feasible_witness :
  ∃ x0, x0 ∈ demo_uniform 0 (4, 1) [0%Q] [1%Q] ∧
        demo_lbfgsb (negative_utility_fn demo_sample) [x0] ([0%Q], [1%Q]) = Ok [[2 # 5]] ∧
        within_bounds [0%Q] [1%Q] [x0] = true.
Proof.
  destruct (optimise_sample_start_feasible nat demo_uniform demo_lbfgsb demo_sample 0
              [0%Q] [1%Q] 4 [[2 # 5]]) as (x0 & Hin & Hrun & Hfeasible).
  - discriminate.
  - vm_compute; reflexivity.
  - exists x0. split_and!; [exact Hin|exact Hrun|]. apply Hfeasible. reflexivity.
Defined.

(** Three iterations of the demo run from the initial design. *)
Lemma observations_match_queries_witness :
  let D0 := initial_dataset nat demo_halton demo_sin 0 in
  ∃ key' D' new_x,
    bo_loop nat demo_split demo_uniform demo_lbfgsb demo_sin unit demo_posterior
      demo_sample_approx 3 0 D0 = Ok (key', D') ∧
    X D' = X D0 ++ new_x ∧ length new_x = 3 ∧ width 1 new_x ∧
    y D' = forrester demo_sin (X D') ∧ aligned D'.
Proof.
  apply (observations_match_queries nat demo_split demo_uniform demo_lbfgsb demo_sin unit
           demo_posterior demo_sample_approx demo_query_shape 3 0); reflexivity.
Defined.

Lemma cumulative_best_is_prefix_minimum_witness :
  let D := mkDataset [[1 # 2]; [1 # 4]; [3 # 4]] [[3 # 1]; [1 # 1]; [2 # 1]] in
  ∃ m, cumulative_best_y D !! 2 = Some [m] ∧
       array_min (take 3 (y D)) = Some m ∧ (m <= 2 # 1)%Q.
Proof.
  intros D. apply (cumulative_best_is_prefix_minimum D 2 (2 # 1)).
  - repeat constructor.
  - reflexivity.
Defined.

End BayesOpt.
